(** * Stimulus sampling and block construction: a shallow embedding

    The development follows the Python sources of the repository:

    - [code/src/functions.py]: signal derivation, item classification
      ([prepare_items]), pooling ([build_pools]), the capped sampler
      ([sample_row]) and the two-item trial constructor ([make_trial],
      [build_trials_flat]);
    - [code/03a_build_stimulus_set.py]: the single-item stimulus set;
    - [code/experiment/experiment_run_functions.py]: the block
      partitioner ([build_blocks_from_items]).

    Data frames are lists of records, the row label of a frame with a
    fresh [RangeIndex] being the position in the list.  Python integers
    are [Z].  Strings are byte strings; the character classes of
    [str.strip], [str.lower] and [str.upper] are written out on the ASCII
    range and leave other bytes unchanged.

    numpy's random generators are an interface ([Generator]) whose only
    primitive is [permutation]; what the sources do with [shuffle],
    [permutation] of a sequence, and pandas' [sample] is expressed through
    it.  Unseeded sources read the ambient [World]. *)

From Stdlib Require Import ZArith Ascii String List DecimalString.
From stdpp Require Import base tactics option list gmap strings sorting.

Local Open Scope string_scope.
Local Open Scope Z_scope.

(** ** Strings *)

Module Str.

(** [str.isspace] on the ASCII range: tab to carriage return, the four
    separators 28..31 and the blank. *)
Definition is_space (a : ascii) : bool :=
  let n := nat_of_ascii a in
  ((9 <=? n)%nat && (n <=? 13)%nat) || ((28 <=? n)%nat && (n <=? 32)%nat).

Fixpoint lstrip_chars (l : list ascii) : list ascii :=
  match l with
  | a :: l' => if is_space a then lstrip_chars l' else l
  | [] => []
  end.

Definition strip_chars (l : list ascii) : list ascii :=
  rev (lstrip_chars (rev (lstrip_chars l))).

(** [s.strip()] *)
Definition strip (s : string) : string :=
  string_of_list_ascii (strip_chars (list_ascii_of_string s)).

Definition lower_char (a : ascii) : ascii :=
  let n := nat_of_ascii a in
  if ((65 <=? n)%nat && (n <=? 90)%nat) then ascii_of_nat (n + 32) else a.

Definition upper_char (a : ascii) : ascii :=
  let n := nat_of_ascii a in
  if ((97 <=? n)%nat && (n <=? 122)%nat) then ascii_of_nat (n - 32) else a.

Definition map_chars (f : ascii → ascii) (s : string) : string :=
  string_of_list_ascii (f <$> list_ascii_of_string s).

(** [s.lower()] and [s.upper()] *)
Definition lower : string → string := map_chars lower_char.
Definition upper : string → string := map_chars upper_char.

(** A display name is blank when nothing is left of it after [strip]. *)
Definition nonblank (s : string) : bool := negb (String.eqb (strip s) "").

End Str.

(** ** Random sources *)

(** The operations of [numpy.random] the sources rely on.  [G] is the
    state of a generator object.  [default_rng seed] and [RandomState
    seed] build a generator from an integer seed (pandas turns an integer
    [random_state] into a [RandomState]); [permutation n g] is
    [g.permutation(n)]: the drawn arrangement of [range(n)] and the
    advanced state. *)
Class Generator (G : Type) := {
  default_rng : Z → G;
  RandomState : Z → G;
  permutation : nat → G → list nat * G;
}.

(** What numpy documents of [permutation]: the result is an arrangement
    of [0 .. n-1]. *)
Class GeneratorLaws (G : Type) `{Generator G} : Prop :=
  permutation_perm : ∀ n g, (permutation n g).1 ≡ₚ seq 0 n.

(** The ambient sources of a process: the entropy a generator made
    without a seed starts from, and the state of the legacy global
    generator that pandas falls back on when [random_state] is [None]. *)
Record World (G : Type) := mkWorld {
  os_entropy : G;
  global_state : G;
}.
Arguments mkWorld {G} _ _.
Arguments os_entropy {G} _.
Arguments global_state {G} _.

(** [frame.iloc[i] for i in idxs]: the rows at the listed positions.
    Under [GeneratorLaws] every drawn position is in range. *)
Definition iloc {A} (rows : list A) (idxs : list nat) : list A :=
  omap (λ i, rows !! i) idxs.

Section random_ops.
Context {G : Type} `{Generator G}.

(** [g.shuffle(x)]: the elements of [x] rearranged by one draw. *)
Definition shuffle {A} (x : list A) (g : G) : list A * G :=
  let '(p, g') := permutation (length x) g in (iloc x p, g').

(** [np.random.default_rng(seed)] with an optional seed. *)
Definition default_rng_opt (seed : option Z) (w : World G) : G * World G :=
  match seed with
  | Some s => (default_rng s, w)
  | None => (os_entropy w, w)
  end.

(** [frame.sample(n=n, random_state=random_state)]: pandas draws
    [choice(len(frame), size=n, replace=False)], that is the first [n]
    entries of a permutation, from a [RandomState] seeded with the
    integer or, without one, from the global generator, whose state the
    draw advances. *)
Definition sample {A} (rows : list A) (n : nat) (random_state : option Z)
    (w : World G) : list A * World G :=
  match random_state with
  | Some s =>
      let '(p, _) := permutation (length rows) (RandomState s) in
      (iloc rows (take n p), w)
  | None =>
      let '(p, g') := permutation (length rows) (global_state w) in
      (iloc rows (take n p), mkWorld (os_entropy w) g')
  end.
End random_ops.

(** A generator that replays a written tape of draws.  An entry that is
    not an arrangement of [0 .. n-1] is replaced by the identity, as is
    every draw after the tape has run out. *)
Module Tape.

Definition tape := list (list nat).

Definition draw (n : nat) (t : tape) : list nat * tape :=
  match t with
  | p :: t' => (if decide (p ≡ₚ seq 0 n) then p else seq 0 n, t')
  | [] => (seq 0 n, [])
  end.

Definition generator (seeded legacy : Z → tape) : Generator tape :=
  {| default_rng := seeded; RandomState := legacy; permutation := draw |}.

Lemma draw_perm n t : (draw n t).1 ≡ₚ seq 0 n.
Proof.
  destruct t as [|p t]; simpl; [done|].
  by destruct (decide (p ≡ₚ seq 0 n)).
Qed.

Lemma laws seeded legacy : @GeneratorLaws tape (generator seeded legacy).
Proof. intros n t. apply draw_perm. Qed.

End Tape.

(** ** Facts on [iloc] and [shuffle] *)

Lemma iloc_seq {A} (rows : list A) : iloc rows (seq 0 (length rows)) = rows.
Proof.
  unfold iloc. induction rows as [|x rows IH] using rev_ind; [done|].
  rewrite length_app. simpl. rewrite Nat.add_1_r, seq_S, omap_app. simpl.
  rewrite lookup_app_r, Nat.sub_diag by lia. simpl.
  f_equal. rewrite <- IH at 2.
  apply list_omap_ext. apply Forall2_same_length_lookup_2; [done|].
  intros i a b Ha Hb. simplify_eq.
  apply lookup_seq in Ha as [-> Hi]. by rewrite lookup_app_l.
Qed.

Lemma iloc_perm {A} (rows : list A) (p : list nat) :
  p ≡ₚ seq 0 (length rows) → iloc rows p ≡ₚ rows.
Proof.
  intros Hp. unfold iloc. rewrite Hp. fold (iloc rows (seq 0 (length rows))).
  by rewrite iloc_seq.
Qed.

Lemma shuffle_perm {G} `{GeneratorLaws G} {A} (x : list A) (g : G) :
  (shuffle x g).1 ≡ₚ x.
Proof.
  unfold shuffle. pose proof (permutation_perm (length x) g) as Hp.
  destruct (permutation (length x) g) as [p g']. by apply iloc_perm.
Qed.


(** ** Facts on lists: filters, positions and partitions *)

Lemma filter_length_perm {A} (f : A → bool) (l l' : list A) :
  l ≡ₚ l' → length (List.filter f l) = length (List.filter f l').
Proof.
  induction 1 as [|x l l' _ IH|x y l|l l' l'' _ IH1 _ IH2]; simpl.
  - done.
  - destruct (f x); simpl; by rewrite IH.
  - by destruct (f x), (f y).
  - by rewrite IH1.
Qed.

Lemma filter_all {A} (f : A → bool) (l : list A) :
  (∀ x, x ∈ l → f x = true) → List.filter f l = l.
Proof.
  induction l as [|x l IH]; intros Hall; [done|]. simpl.
  rewrite (Hall x) by apply list_elem_of_here. f_equal.
  apply IH. intros y Hy. apply Hall. by apply list_elem_of_further.
Qed.

Lemma filter_none {A} (f : A → bool) (l : list A) :
  (∀ x, x ∈ l → f x = false) → List.filter f l = [].
Proof.
  induction l as [|x l IH]; intros Hall; [done|]. simpl.
  rewrite (Hall x) by apply list_elem_of_here.
  apply IH. intros y Hy. apply Hall. by apply list_elem_of_further.
Qed.

Lemma filter_ext_elem {A} (f g : A → bool) (l : list A) :
  (∀ x, x ∈ l → f x = g x) → List.filter f l = List.filter g l.
Proof.
  induction l as [|x l IH]; intros Hall; [done|]. simpl.
  rewrite (Hall x) by apply list_elem_of_here.
  rewrite IH; [done|]. intros y Hy. apply Hall. by apply list_elem_of_further.
Qed.

Lemma iloc_take_submseteq {A} (rows : list A) (p : list nat) n :
  p ≡ₚ seq 0 (length rows) → iloc rows (take n p) ⊆+ rows.
Proof.
  intros Hp. rewrite <- (iloc_perm rows p Hp) at 2.
  rewrite <- (take_drop n p) at 2. unfold iloc. rewrite omap_app.
  by apply submseteq_inserts_r.
Qed.

Lemma filter_imap_length {A B} (f : nat → A → B) (P : B → bool) (Q : A → bool)
    (l : list A) :
  (∀ i x, P (f i x) = Q x) →
  length (List.filter P (imap f l)) = length (List.filter Q l).
Proof.
  intros HPQ. revert f HPQ. induction l as [|x l IH]; intros f HPQ; [done|].
  rewrite imap_cons. simpl. rewrite HPQ.
  specialize (IH (f ∘ S)). simpl in IH.
  destruct (Q x); simpl; rewrite IH; try done; intros i y; apply HPQ.
Qed.

Lemma filter_fmap_length {A B} (g : A → B) (P : B → bool) (l : list A) :
  length (List.filter (P ∘ g) l) = length (List.filter P (g <$> l)).
Proof.
  induction l as [|x l IH]; [done|]. rewrite fmap_cons. simpl.
  destruct (P (g x)); simpl; by rewrite IH.
Qed.

Lemma filter_zip_fst_length {A B} (P : A → bool) (l : list A) (k : list B) :
  (length l ≤ length k)%nat →
  length (List.filter (λ xy, P xy.1) (zip l k)) = length (List.filter P l).
Proof.
  intros Hlen. rewrite <- (fst_zip l k) at 2 by done.
  by rewrite <- filter_fmap_length.
Qed.

Lemma filter_filter_andb {A} (f g : A → bool) (l : list A) :
  List.filter f (List.filter g l) = List.filter (λ x, g x && f x) l.
Proof.
  induction l as [|x l IH]; [done|]. simpl.
  destruct (g x); simpl; [destruct (f x)|]; by rewrite IH.
Qed.

Lemma filter_positions {A} (P : A → bool) (l : list A) :
  length (List.filter P l)
  = length (List.filter (λ i, match l !! i with Some x => P x | None => false end)
              (seq 0 (length l))).
Proof.
  induction l as [|x l IH] using rev_ind; [done|].
  rewrite length_app. simpl. rewrite Nat.add_1_r, seq_S. simpl.
  rewrite !List.filter_app, !length_app, IH. f_equal.
  - f_equal. apply filter_ext_elem. intros i Hi%elem_of_seq.
    by rewrite lookup_app_l by lia.
  - simpl. rewrite lookup_app_r, Nat.sub_diag by lia. simpl. by destruct (P x).
Qed.

Lemma filter_NoDup {A} (f : A → bool) (l : list A) : NoDup l → NoDup (List.filter f l).
Proof.
  induction 1 as [|x l Hx _ IH]; simpl; [constructor|].
  destruct (f x); [|done]. constructor; [|done].
  intros Hin. apply Hx. apply list_elem_of_In, filter_In in Hin as [Hin _].
  by apply list_elem_of_In.
Qed.

Lemma filter_submseteq {A} (f : A → bool) (l : list A) : List.filter f l ⊆+ l.
Proof.
  induction l as [|x l IH]; simpl; [done|].
  destruct (f x); [by apply submseteq_skip|by apply submseteq_cons].
Qed.

Lemma filter_partition_perm {A} (f : A → bool) (l : list A) :
  List.filter f l ++ List.filter (negb ∘ f) l ≡ₚ l.
Proof.
  induction l as [|x l IH]; simpl; [done|].
  destruct (f x); simpl.
  - by rewrite IH.
  - by rewrite <- Permutation_middle, IH.
Qed.

Lemma concat_perm_Forall2 {A} (l1 l2 : list (list A)) :
  Forall2 (≡ₚ) l1 l2 → concat l1 ≡ₚ concat l2.
Proof.
  induction 1 as [|x y l1 l2 Hxy _ IH]; simpl; [done|]. by rewrite Hxy, IH.
Qed.

Lemma iloc_app {A} (rows : list A) (l1 l2 : list nat) :
  iloc rows (l1 ++ l2) = (iloc rows l1 ++ iloc rows l2)%list.
Proof. unfold iloc. apply omap_app. Qed.

Lemma iloc_concat {A} (rows : list A) (blocks : list (list nat)) :
  iloc rows (concat blocks) = concat (iloc rows <$> blocks).
Proof.
  induction blocks as [|b blocks IH]; [done|].
  rewrite fmap_cons. cbn [concat]. by rewrite iloc_app, IH.
Qed.

(** Filtering a list by each key of a duplicate-free list of keys cuts
    it into parts that are a rearrangement of the list, when every
    element has one key and that key is listed. *)
Lemma concat_filter_keys {A K} (f : K → A → bool) (keys : list K) (l : list A) :
  NoDup keys →
  (∀ x, x ∈ l → ∃ k, k ∈ keys ∧ f k x = true) →
  (∀ x k k', f k x = true → f k' x = true → k = k') →
  concat ((λ k, List.filter (f k) l) <$> keys) ≡ₚ l.
Proof.
  intros Hnd. revert l. induction Hnd as [|k keys Hfresh _ IH]; intros l Hkey Hone.
  - simpl. destruct l as [|x l]; [done|].
    destruct (Hkey x (list_elem_of_here _ _)) as (k & Hk & _). by apply elem_of_nil in Hk.
  - rewrite fmap_cons. cbn [concat].
    etransitivity; [|apply (filter_partition_perm (f k) l)].
    apply Permutation_app_head.
    assert (Heq : (λ k', List.filter (f k') l) <$> keys
                  = (λ k', List.filter (f k') (List.filter (negb ∘ f k) l)) <$> keys).
    { apply Forall_fmap_ext, Forall_forall.
      intros k' Hk'. rewrite filter_filter_andb. apply filter_ext_elem.
      intros x _. simpl. destruct (f k' x) eqn:Hx; [|by rewrite andb_false_r].
      destruct (f k x) eqn:Hx'; [|done].
      exfalso. apply Hfresh. by rewrite (Hone x k k'). }
    rewrite Heq. apply IH; [|done].
    intros x Hx. apply list_elem_of_In, filter_In in Hx as [Hx Hnot].
    destruct (Hkey x) as (k' & Hk' & Hf); [by apply list_elem_of_In|].
    exists k'. split; [|done].
    apply elem_of_cons in Hk' as [->|Hk']; [|done].
    simpl in Hnot. by rewrite Hf in Hnot.
Qed.
(** ** [code/src/functions.py] *)

Module Functions.

(** A row of a pool: the columns [cols] of [build_pools].  [category] and
    [eco_score] may be missing ([None] is pandas' NaN / NA); the two
    signals are the 0/1 integers of [astype(int)]. *)
Record Item := mkItem {
  product_name : string;
  category : option string;
  eco_score : option string;
  eco_signal : Z;
  organic_label : Z;
  is_danish_like : bool;
  is_lang_da : bool;
}.

#[global] Instance Item_eq_dec : EqDecision Item.
Proof. solve_decision. Defined.

(** A row of the frame [prepare_items] returns: the pool columns and the
    cell label. *)
Record Prepared := mkPrepared {
  item : Item;
  cell : string;
}.

#[global] Instance Prepared_eq_dec : EqDecision Prepared.
Proof. solve_decision. Defined.

(** [name_counts.get(name, 0)] *)
Definition get_count (name_counts : gmap string Z) (name : string) : Z :=
  default 0 (name_counts !! name).

(** *** [sample_row] *)

(** [name = str(rec.get("product_name", "")).strip()] *)
Definition rec_name (rec : Item) : string := Str.strip (product_name rec).

(** The test of the first loop: a name, under the cap, and Danish by
    either flag. *)
Definition pass1 (name_counts : gmap string Z) (max_repeats : Z) (rec : Item) : bool :=
  if String.eqb (rec_name rec) "" then false
  else if max_repeats <=? get_count name_counts (rec_name rec) then false
  else is_lang_da rec || is_danish_like rec.

(** The test of the second loop: [name and name_counts.get(name, 0) <
    max_repeats]. *)
Definition pass2 (name_counts : gmap string Z) (max_repeats : Z) (rec : Item) : bool :=
  negb (String.eqb (rec_name rec) "")
  && (get_count name_counts (rec_name rec) <? max_repeats).

Section sample_row.
Context {G : Type} `{Generator G}.

Definition sample_row (pool : list Item) (rng : G)
    (name_counts : gmap string Z) (max_repeats : Z) : option Item * G :=
  if decide (length pool = 0%nat) then (None, rng)
  else
    let '(idxs, rng) := permutation (length pool) rng in
    let recs := iloc pool idxs in
    match List.find (pass1 name_counts max_repeats) recs with
    | Some rec => (Some rec, rng)
    | None => (List.find (pass2 name_counts max_repeats) recs, rng)
    end.
(** The order in which [sample_row] scans a pool. *)
Definition scan_order (pool : list Item) (rng : G) : list Item :=
  iloc pool (permutation (length pool) rng).1.

End sample_row.

(** The sampler's contract in the words of the specification: an item is
    eligible when the usage count of its name is strictly below the cap,
    preferred when its language-match flag is set as well. *)
Definition below_cap (name_counts : gmap string Z) (max_repeats : Z) (rec : Item) : bool :=
  get_count name_counts (rec_name rec) <? max_repeats.

Definition language_match (rec : Item) : bool := is_lang_da rec || is_danish_like rec.

Definition two_pass (name_counts : gmap string Z) (max_repeats : Z)
    (order : list Item) : option Item :=
  match List.find (λ rec, below_cap name_counts max_repeats rec && language_match rec) order with
  | Some rec => Some rec
  | None => List.find (below_cap name_counts max_repeats) order
  end.

(** The data-model invariant of items: the display name is not blank. *)
Definition names_nonblank (pool : list Item) : Prop :=
  ∀ rec, rec ∈ pool → Str.nonblank (product_name rec) = true.


(** *** Signals *)

(** A value of a column read from the products file: the column may be
    absent from the frame, the value may be missing (NaN), or it is a
    string. *)
Inductive Col :=
  | Absent
  | NaN
  | Val (s : string).

(** [_series_or_empty(df, col)]: the column through [astype(str)], or an
    empty string for an absent column. *)
Definition _series_or_empty (v : Col) : string :=
  match v with
  | Absent => ""
  | NaN => "nan"
  | Val s => s
  end.

(** [derive_eco_signal], on one row: [isin(["A", "B"]).astype(int)] of
    the stripped, upper-cased grade. *)
Definition derive_eco_signal (eco_score_col : Col) : Z :=
  let eco := Str.upper (Str.strip (_series_or_empty eco_score_col)) in
  Z.b2z (bool_decide (eco ∈ ["A"; "B"])).

(** The alternatives of [_ORG_REGEX]. *)
Definition org_words : list string :=
  [ "en:organic"; "da:økologisk"; "da:okologisk"; "da:oekologisk";
    "organic"; "økologisk"; "okologisk"; "oekologisk";
    "bio"; "biologique"; "ecologico"; "ecológico"; "ökologisch"; "öko" ].

(** The class [[,;:\s]] that delimits a token of [_ORG_REGEX]. *)
Definition is_delim (a : ascii) : bool :=
  bool_decide (a ∈ [","; ";"; ":"]%char) || Str.is_space a.

Fixpoint strip_prefix (w s : list ascii) : option (list ascii) :=
  match w, s with
  | [], _ => Some s
  | a :: w', b :: s' => if Ascii.eqb a b then strip_prefix w' s' else None
  | _ :: _, [] => None
  end.

(** One of the alternatives stands here and is followed by the end of
    the text or a delimiter. *)
Definition word_here (s : list ascii) : bool :=
  existsb (λ w,
    match strip_prefix (Str.lower_char <$> list_ascii_of_string w) s with
    | Some [] => true
    | Some (a :: _) => is_delim a
    | None => false
    end) org_words.

(** [_ORG_REGEX.search]: [at_start] says whether the position is the start of
    the text or follows a delimiter. *)
Fixpoint org_search (at_start : bool) (s : list ascii) : bool :=
  (at_start && word_here s) ||
  match s with
  | [] => false
  | a :: s' => org_search (is_delim a) s'
  end.

(** [derive_organic_label], on one row. *)
Definition derive_organic_label (labels_tags : Col) : Z :=
  let lab := Str.lower (_series_or_empty labels_tags) in
  Z.b2z (org_search true (Str.lower_char <$> list_ascii_of_string lab)).

(** *** [prepare_items]: signals, cells and the cell filter *)

(** A row of the working frame of [prepare_items] once the display name,
    the Danish flags and the category are set (the statements above the
    comment [# Signals]). *)
Record Named := mkNamed {
  name_clean : string;
  named_category : option string;
  eco_score_col : Col;
  labels_tags : Col;
  named_is_danish_like : bool;
  named_is_lang_da : bool;
}.

(** [np.select(condlist, choicelist, default)], on one row: the choice of
    the first condition that holds. *)
Fixpoint np_select (condlist : list bool) (choicelist : list string)
    (default : string) : string :=
  match condlist, choicelist with
  | c :: condlist', x :: choicelist' =>
      if c then x else np_select condlist' choicelist' default
  | _, _ => default
  end.

(** The four conditions [[A & L, A & NL, NA & L, NA & NL]] on one row. *)
Definition cell_conditions (eco_signal organic_label : Z) : list bool :=
  let A := eco_signal =? 1 in
  let NA := eco_signal =? 0 in
  let L := organic_label =? 1 in
  let NL := organic_label =? 0 in
  [A && L; A && NL; NA && L; NA && NL].

Definition cell_of (eco_signal organic_label : Z) : string :=
  np_select (cell_conditions eco_signal organic_label)
            ["A_label"; "A_nolabel"; "NA_label"; "NA_nolabel"]
            "other".

Definition cell_keys : list string :=
  ["A_label"; "A_nolabel"; "NA_label"; "NA_nolabel"].

(** The frame with its [eco_signal], [organic_label] and [cell] columns,
    before the cell filter. *)
Definition with_cells (df : list Named) : list Prepared :=
  (λ r,
     let eco_signal := derive_eco_signal (eco_score_col r) in
     let organic_label := derive_organic_label (labels_tags r) in
     {| item := {| product_name := name_clean r;
                   category := named_category r;
                   eco_score := match eco_score_col r with Val s => Some s | _ => None end;
                   eco_signal := eco_signal;
                   organic_label := organic_label;
                   is_danish_like := named_is_danish_like r;
                   is_lang_da := named_is_lang_da r |};
        cell := cell_of eco_signal organic_label |}) <$> df.

(** [df[df["cell"].isin([...])]] and the final columns. *)
Definition prepare_items (df : list Named) : list Prepared :=
  List.filter (λ r, bool_decide (cell r ∈ cell_keys)) (with_cells df).

(** *** [build_pools] *)

(** Order of group keys: strings by code unit, the missing category
    last. *)
Definition cat_leb (a b : option string) : bool :=
  match a, b with
  | Some x, Some y => String.leb x y
  | Some _, None => true
  | None, Some _ => false
  | None, None => true
  end.

Fixpoint insert_key (k : option string) (l : list (option string)) : list (option string) :=
  match l with
  | [] => [k]
  | x :: l' => if cat_leb k x then k :: l else x :: insert_key k l'
  end.

(** The keys of [items.groupby("category", dropna=False)]: the distinct
    categories in sorted order. *)
Definition group_keys (items : list Prepared) : list (option string) :=
  foldr insert_key [] (remove_dups ((category ∘ item) <$> items)).

(** The four pools cut from a frame: [frame[frame["cell"] == key][cols]]
    for each key. *)
Definition cell_pools (frame : list Prepared) : gmap string (list Item) :=
  list_to_map
    ((λ key, (key, item <$> List.filter (λ r, String.eqb (cell r) key) frame))
       <$> cell_keys).

Definition build_pools (items : list Prepared)
    : list (option string * gmap string (list Item)) * gmap string (list Item) :=
  let pools_by_cat :=
    (λ cat, (cat, cell_pools
                    (List.filter (λ r, bool_decide (category (item r) = cat)) items)))
      <$> group_keys items in
  let global_pools := cell_pools items in
  (pools_by_cat, global_pools).

(** [pools[key]] *)
Definition pool_at (pools : gmap string (list Item)) (key : string) : list Item :=
  default [] (pools !! key).

(** [pools_by_cat[c]] *)
Definition cat_pools (pools_by_cat : list (option string * gmap string (list Item)))
    (c : option string) : gmap string (list Item) :=
  match List.find (λ kv, bool_decide (kv.1 = c)) pools_by_cat with
  | Some kv => kv.2
  | None => ∅
  end.

(** *** [make_trial] *)

Record Trial := mkTrial {
  congruent : Z;
  left_is_A : Z;
  left_name : string;
  left_cat : string;
  left_label : Z;
  left_is_sust : Z;
  right_name : string;
  right_cat : string;
  right_label : Z;
  right_is_sust : Z;
  salience : option (Z + string);
}.

(** [str(x)] of a category *)
Definition str_cat (c : option string) : string := default "nan" c.

(** [int(bool(x))] *)
Definition int_bool (x : Z) : Z := if x =? 0 then 0 else 1.

(** Truth value of a category: NaN is true, the empty string is not. *)
Definition truthy (c : option string) : bool :=
  match c with
  | Some s => negb (String.eqb s "")
  | None => true
  end.

Section trials.
Context {G : Type} `{Generator G}.

Definition make_trial (congruent left_is_A : bool)
    (pools_by_cat : list (option string * gmap string (list Item)))
    (global_pools : gmap string (list Item))
    (rng : G) (name_counts : gmap string Z) (max_repeats : Z)
    : option Trial * G :=
  let '(a_need, na_need) :=
    if congruent then ("A_label", "NA_nolabel") else ("A_nolabel", "NA_label") in
  let cats := pools_by_cat.*1 in
  let '(cats, rng) := shuffle cats rng in
  let chosen :=
    List.find (λ c,
      bool_decide (0 < length (pool_at (cat_pools pools_by_cat c) a_need))%nat
      && bool_decide (0 < length (pool_at (cat_pools pools_by_cat c) na_need))%nat)
      cats in
  let '(pool_A, pool_NA) :=
    match chosen with
    | Some c =>
        if truthy c
        then (pool_at (cat_pools pools_by_cat c) a_need,
              pool_at (cat_pools pools_by_cat c) na_need)
        else (pool_at global_pools a_need, pool_at global_pools na_need)
    | None => (pool_at global_pools a_need, pool_at global_pools na_need)
    end in
  let '(a, rng) := sample_row pool_A rng name_counts max_repeats in
  let '(na, rng) := sample_row pool_NA rng name_counts max_repeats in
  match a, na with
  | Some a, Some na =>
      let '(lt, rt) := if left_is_A then (a, na) else (na, a) in
      (Some {| congruent := Z.b2z congruent;
               left_is_A := Z.b2z left_is_A;
               left_name := product_name lt;
               left_cat := str_cat (category lt);
               left_label := int_bool (organic_label lt);
               left_is_sust := int_bool (eco_signal lt);
               right_name := product_name rt;
               right_cat := str_cat (category rt);
               right_label := int_bool (organic_label rt);
               right_is_sust := int_bool (eco_signal rt);
               salience := None |}, rng)
  | _, _ => (None, rng)
  end.

(** *** [build_trials_flat] *)

Definition cells : list (Z * Z * string) :=
  c ← [0; 1]; l ← [0; 1]; s ← ["low"; "high"]; [(c, l, s)].

(** A component of a tuple that keys a dict, or of a row of an array: a
    Python int or a string ([numpy.str_] hashes and compares as
    [str]).  An int and a string are never equal. *)
Definition PyVal : Type := Z + string.

Definition Key : Type := PyVal * PyVal * PyVal.

(** The tuple [(c, l, s)] of the comprehensions over [cells]. *)
Definition key_of (k : Z * Z * string) : Key := (inl k.1.1, inl k.1.2, inr k.2).

(** [str(x)] of an int *)
Definition str_int (z : Z) : string := NilZero.string_of_int (Z.to_int z).

(** A row of [np.asarray(cells)], the array [rng.permutation(cells)]
    rearranges: ints and strings in one array make an array of strings,
    so the row of [(c, l, s)] is [(str(c), str(l), s)]. *)
Definition str_row (k : Z * Z * string) : Key :=
  (inr (str_int k.1.1), inr (str_int k.1.2), inr k.2).

(** [bool(x)] *)
Definition bool_of (x : PyVal) : bool :=
  match x with
  | inl z => negb (z =? 0)
  | inr s => negb (String.eqb s "")
  end.

(** The exceptions of [build_trials_flat]. *)
Inductive Raised :=
  | ValueError
  | KeyError (k : Key).

(** [d[k]], which raises for a key the dict does not hold. *)
Definition getitem (d : gmap Key Z) (k : Key) : Raised + Z :=
  match d !! k with
  | Some v => inr v
  | None => inl (KeyError k)
  end.

(** [d[k]] of a key the dict holds. *)
Definition at_cell (d : gmap Key Z) (k : Key) : Z :=
  default 0 (d !! k).

(** The state the loops of [build_trials_flat] work on. *)
Record State := mkState {
  st_rng : G;
  st_name_counts : gmap string Z;
  st_cell_filled : gmap Key Z;
  st_trials : list Trial;
}.

(** The inner loop: [while tr is None and tries < 15], entered with
    [tr = None]; [budget] counts the iterations that remain. *)
Fixpoint retry (budget : nat) (c l : PyVal)
    (pools_by_cat : list (option string * gmap string (list Item)))
    (global_pools : gmap string (list Item))
    (rng : G) (name_counts : gmap string Z) (max_repeats : Z)
    : option Trial * G :=
  match budget with
  | O => (None, rng)
  | S budget' =>
      let '(tr, rng) :=
        make_trial (bool_of c) (bool_of l) pools_by_cat global_pools
                   rng name_counts max_repeats in
      match tr with
      | Some _ => (tr, rng)
      | None => retry budget' c l pools_by_cat global_pools rng name_counts max_repeats
      end
  end.

(** One attempt at a slot: a first call of [make_trial] and, when it
    fails, the retries. *)
Definition attempt (c l : PyVal)
    (pools_by_cat : list (option string * gmap string (list Item)))
    (global_pools : gmap string (list Item))
    (rng : G) (name_counts : gmap string Z) (max_repeats : Z)
    : option Trial * G :=
  let '(tr, rng) :=
    make_trial (bool_of c) (bool_of l) pools_by_cat global_pools
               rng name_counts max_repeats in
  match tr with
  | Some _ => (tr, rng)
  | None => retry 15 c l pools_by_cat global_pools rng name_counts max_repeats
  end.

(** [name_counts[n] = name_counts.get(n, 0) + 1] when the stripped name
    [n] is not empty. *)
Definition count_name (name : string) (name_counts : gmap string Z) : gmap string Z :=
  let n := Str.strip name in
  if String.eqb n "" then name_counts
  else <[n := get_count name_counts n + 1]> name_counts.

(** The body of [while cell_filled[(c,l,s)] < need] after a successful
    attempt. *)
Definition record_trial (k : Key) (tr : Trial) (rng : G) (st : State) : State :=
  let tr := {| congruent := congruent tr; left_is_A := left_is_A tr;
               left_name := left_name tr; left_cat := left_cat tr;
               left_label := left_label tr; left_is_sust := left_is_sust tr;
               right_name := right_name tr; right_cat := right_cat tr;
               right_label := right_label tr; right_is_sust := right_is_sust tr;
               salience := Some k.2 |} in
  {| st_rng := rng;
     st_name_counts := count_name (right_name tr) (count_name (left_name tr) (st_name_counts st));
     st_cell_filled := <[k := at_cell (st_cell_filled st) k + 1]> (st_cell_filled st);
     st_trials := st_trials st ++ [tr] |}.

(** The generator has advanced; nothing else changes. *)
Definition set_rng (rng : G) (st : State) : State :=
  {| st_rng := rng; st_name_counts := st_name_counts st;
     st_cell_filled := st_cell_filled st; st_trials := st_trials st |}.

(** The loop [while cell_filled[(c,l,s)] < need], entered with a key
    both dicts hold: every iteration that does not leave by [break]
    fills one slot, so [slots], the number of open slots on entry,
    bounds the iterations. *)
Fixpoint fill_cell (slots : nat) (k : Key)
    (pools_by_cat : list (option string * gmap string (list Item)))
    (global_pools : gmap string (list Item))
    (max_repeats : Z) (st : State) : State :=
  match slots with
  | O => st
  | S slots' =>
      let '(tr, rng) :=
        attempt k.1.1 k.1.2 pools_by_cat global_pools (st_rng st) (st_name_counts st)
                max_repeats in
      match tr with
      | None => set_rng rng st
      | Some tr =>
          fill_cell slots' k pools_by_cat global_pools max_repeats
                    (record_trial k tr rng st)
      end
  end.

(** One turn of [for c, l, s in rng.permutation(cells)]: the two
    lookups [cell_targets[(c,l,s)]] and [cell_filled[(c,l,s)]], either
    of which may raise, and the loop of the cell.  A turn entered after
    an exception does nothing. *)
Definition run_cell (cell_targets : gmap Key Z)
    (pools_by_cat : list (option string * gmap string (list Item)))
    (global_pools : gmap string (list Item))
    (max_repeats : Z) (acc : Raised + State) (k : Key) : Raised + State :=
  match acc with
  | inl e => inl e
  | inr st =>
      match getitem cell_targets k with
      | inl e => inl e
      | inr need =>
          match getitem (st_cell_filled st) k with
          | inl e => inl e
          | inr filled =>
              inr (fill_cell (Z.to_nat (need - filled)) k pools_by_cat global_pools
                             max_repeats st)
          end
      end
  end.

(** What the function hands back: the frame of trials and, when fewer
    than [n_trials] were built, the warning it prints (the total, the
    request, and the shortfall of every cell that is short). *)
Record Built := mkBuilt {
  trials : list Trial;
  warning : option (Z * Z * list (Key * Z));
  cell_targets : gmap Key Z;
  cell_filled : gmap Key Z;
  name_counts : gmap string Z;
}.

Definition build_trials_flat (n_trials : Z)
    (pools_by_cat : list (option string * gmap string (list Item)))
    (global_pools : gmap string (list Item))
    (seed : Z) (max_repeats_per_name : Z) : Raised + Built :=
  if seed <? 0 then inl ValueError
  else
    let rng := default_rng seed in
    let per_cell := n_trials / 8 in
    let remainder := n_trials - per_cell * 8 in
    let cell_targets : gmap Key Z :=
      list_to_map ((λ k, (key_of k, per_cell)) <$> cells) in
    let '(p, rng) := permutation (length cells) rng in
    let cell_targets :=
      foldl (λ d k, <[key_of k := at_cell d (key_of k) + 1]> d) cell_targets
            (iloc cells (take (Z.to_nat remainder) p)) in
    let cell_filled : gmap Key Z :=
      list_to_map ((λ k, (key_of k, 0)) <$> cells) in
    let '(order, rng) := shuffle (str_row <$> cells) rng in
    match
      foldl (run_cell cell_targets pools_by_cat global_pools max_repeats_per_name)
            (inr {| st_rng := rng; st_name_counts := ∅;
                    st_cell_filled := cell_filled; st_trials := [] |})
            order
    with
    | inl e => inl e
    | inr st =>
        let total := Z.of_nat (length (st_trials st)) in
        let short :=
          omap (λ k, if at_cell (st_cell_filled st) k <? at_cell cell_targets k
                     then Some (k, at_cell cell_targets k - at_cell (st_cell_filled st) k)
                     else None) (key_of <$> cells) in
        inr {| trials := st_trials st;
               warning := if total <? n_trials then Some (total, n_trials, short) else None;
               cell_targets := cell_targets;
               cell_filled := st_cell_filled st;
               name_counts := st_name_counts st |}
    end.

End trials.

(** *** Example data *)

(** Four products of one category that share the display name "Skyr",
    one for each cell, as they come into [prepare_items]. *)
Definition skyr_rows : list Named :=
  [ mkNamed "Skyr" (Some "dairies") (Val "a") (Val "en:organic") true true;
    mkNamed "Skyr" (Some "dairies") (Val "b") (Val "en:no-additives") true true;
    mkNamed "Skyr" (Some "dairies") (Val "d") (Val "en:eu-organic,en:organic") true true;
    mkNamed "Skyr" (Some "dairies") (Val "e") Absent true true ].

Definition skyr_pools
    : list (option string * gmap string (list Item)) * gmap string (list Item) :=
  build_pools (prepare_items skyr_rows).

(** Two categories with one congruent pair each, every name distinct. *)
Definition pair_rows : list Named :=
  [ mkNamed "Havregryn" (Some "cereals") (Val "a") (Val "en:organic") true true;
    mkNamed "Cornflakes" (Some "cereals") (Val "d") (Val "") true true;
    mkNamed "Rugbrød" (Some "breads") (Val "b") (Val "da:økologisk") true true;
    mkNamed "Toastbrød" (Some "breads") (Val "e") (Val "") true true ].

Definition pair_pools
    : list (option string * gmap string (list Item)) * gmap string (list Item) :=
  build_pools (prepare_items pair_rows).

(** A tape generator whose draws are all identities. *)
Definition plain_generator : Generator Tape.tape :=
  Tape.generator (λ _, []) (λ _, []).

(** A pool of two items; only the second has a Danish flag set. *)
Definition oat_pool : list Item :=
  [ mkItem "Havregryn" (Some "cereals") (Some "a") 1 1 false false;
    mkItem "Havredrik" (Some "drinks") (Some "b") 1 1 true false ].

(** *** Facts on [sample_row] *)

Lemma find_ext_in {A} (f g : A → bool) (l : list A) :
  (∀ x, x ∈ l → f x = g x) → List.find f l = List.find g l.
Proof.
  induction l as [|x l IH]; intros Hfg; [done|]. simpl.
  rewrite (Hfg x) by apply list_elem_of_here.
  destruct (g x); [done|]. apply IH. intros y Hy. apply Hfg. by apply list_elem_of_further.
Qed.

Lemma find_None_iff {A} (f : A → bool) (l : list A) :
  List.find f l = None ↔ ∀ x, x ∈ l → f x = false.
Proof.
  induction l as [|x l IH]; simpl.
  - split; [|done]. intros _ y Hy. by apply elem_of_nil in Hy.
  - destruct (f x) eqn:Hx.
    + split; [done|]. intros Hall. specialize (Hall x (list_elem_of_here _ _)). congruence.
    + rewrite IH. split.
      * intros Hall y Hy. apply elem_of_cons in Hy as [->|Hy]; auto.
      * intros Hall y Hy. apply Hall. by apply list_elem_of_further.
Qed.

Lemma pass1_nonblank name_counts max_repeats rec :
  Str.nonblank (product_name rec) = true →
  pass1 name_counts max_repeats rec
  = below_cap name_counts max_repeats rec && language_match rec.
Proof.
  unfold Str.nonblank, pass1, below_cap, language_match, rec_name.
  intros Hn. apply negb_true_iff in Hn. rewrite Hn.
  destruct (Z.leb_spec max_repeats (get_count name_counts (Str.strip (product_name rec))));
    destruct (Z.ltb_spec (get_count name_counts (Str.strip (product_name rec))) max_repeats);
    try lia; done.
Qed.

Lemma pass2_nonblank name_counts max_repeats rec :
  Str.nonblank (product_name rec) = true →
  pass2 name_counts max_repeats rec = below_cap name_counts max_repeats rec.
Proof.
  unfold Str.nonblank, pass2, below_cap, rec_name. intros Hn. by rewrite Hn.
Qed.

Section sample_row_facts.
Context {G : Type} `{GeneratorLaws G}.

Lemma scan_order_perm pool rng : scan_order pool rng ≡ₚ pool.
Proof. apply iloc_perm, permutation_perm. Qed.

Lemma sample_row_scan pool rng name_counts max_repeats :
  (sample_row pool rng name_counts max_repeats).1
  = match List.find (pass1 name_counts max_repeats) (scan_order pool rng) with
    | Some rec => Some rec
    | None => List.find (pass2 name_counts max_repeats) (scan_order pool rng)
    end.
Proof.
  unfold sample_row, scan_order.
  destruct (decide (length pool = 0%nat)) as [Hl|Hl].
  - pose proof (scan_order_perm pool rng) as Hp. unfold scan_order in Hp.
    apply nil_length_inv in Hl. subst pool.
    apply Permutation_nil_r in Hp. by rewrite Hp.
  - destruct (permutation (length pool) rng) as [idxs rng']. simpl.
    by destruct (List.find (pass1 name_counts max_repeats) (iloc pool idxs)).
Qed.

(** C2.  On a pool of items with non-blank display names, [sample_row]
    scans a shuffled order of the pool (a rearrangement of its rows) and
    returns the first item whose name's usage count is strictly below
    [max_repeats] and whose language-match flag is set; when there is
    none it returns the first item that is merely under the cap; and it
    returns [None] exactly when no item of the pool is under the cap, the
    empty pool included. *)
Theorem sample_row_two_pass pool rng name_counts max_repeats :
  names_nonblank pool →
  scan_order pool rng ≡ₚ pool
  ∧ (sample_row pool rng name_counts max_repeats).1
    = two_pass name_counts max_repeats (scan_order pool rng)
  ∧ ((sample_row pool rng name_counts max_repeats).1 = None
     ↔ ∀ rec, rec ∈ pool → below_cap name_counts max_repeats rec = false).
Proof.
  intros Hnames.
  pose proof (scan_order_perm pool rng) as Hperm.
  assert (Hin : ∀ rec, rec ∈ scan_order pool rng →
                       Str.nonblank (product_name rec) = true).
  { intros rec Hrec. apply Hnames. by rewrite <- Hperm. }
  assert (Heq : (sample_row pool rng name_counts max_repeats).1
                = two_pass name_counts max_repeats (scan_order pool rng)).
  { rewrite sample_row_scan. unfold two_pass.
    rewrite (find_ext_in (pass1 name_counts max_repeats)
               (λ rec, below_cap name_counts max_repeats rec && language_match rec))
      by (intros; by apply pass1_nonblank, Hin).
    rewrite (find_ext_in (pass2 name_counts max_repeats)
               (below_cap name_counts max_repeats))
      by (intros; by apply pass2_nonblank, Hin).
    done. }
  split; [done|]. split; [done|].
  rewrite Heq. unfold two_pass.
  destruct (List.find _ (scan_order pool rng)) as [rec|] eqn:Hfirst.
  - split; [done|]. intros Hnone.
    apply find_some in Hfirst as [Hrec Hok].
    apply list_elem_of_In in Hrec. rewrite Hperm in Hrec.
    rewrite (Hnone rec Hrec) in Hok. done.
  - rewrite find_None_iff. split.
    + intros Hall rec Hrec. apply Hall. by rewrite Hperm.
    + intros Hall rec Hrec. apply Hall. by rewrite <- Hperm.
Qed.

End sample_row_facts.

(** *** Facts on the classifier and the pools *)

Lemma derive_eco_signal_01 v : derive_eco_signal v = 0 ∨ derive_eco_signal v = 1.
Proof. unfold derive_eco_signal. destruct (bool_decide _); auto. Qed.

Lemma derive_organic_label_01 v : derive_organic_label v = 0 ∨ derive_organic_label v = 1.
Proof. unfold derive_organic_label. destruct (org_search _ _); auto. Qed.

Lemma cell_of_01 e o :
  (e = 0 ∨ e = 1) → (o = 0 ∨ o = 1) →
  cell_of e o ∈ cell_keys ∧ cell_of e o ≠ "other"
  ∧ length (List.filter id (cell_conditions e o)) = 1%nat.
Proof.
  intros [->| ->] [->| ->]; vm_compute; (split; [|split]);
    first [reflexivity | discriminate | repeat constructor].
Qed.

(** C10.  The two derived signals are 0 or 1 on every row, so every row
    meets exactly one of the four cell conditions, no row is labelled
    "other", and the filter on the four cells drops nothing: the frame
    [prepare_items] returns has all the rows that were classified. *)
Theorem other_cell_unreachable (df : list Named) :
  (∀ r, r ∈ with_cells df →
     (eco_signal (item r) = 0 ∨ eco_signal (item r) = 1)
     ∧ (organic_label (item r) = 0 ∨ organic_label (item r) = 1)
     ∧ length (List.filter id
                 (cell_conditions (eco_signal (item r)) (organic_label (item r)))) = 1%nat
     ∧ cell r ∈ cell_keys
     ∧ cell r ≠ "other")
  ∧ prepare_items df = with_cells df.
Proof.
  assert (Hrows : ∀ r, r ∈ with_cells df →
     (eco_signal (item r) = 0 ∨ eco_signal (item r) = 1)
     ∧ (organic_label (item r) = 0 ∨ organic_label (item r) = 1)
     ∧ length (List.filter id
                 (cell_conditions (eco_signal (item r)) (organic_label (item r)))) = 1%nat
     ∧ cell r ∈ cell_keys
     ∧ cell r ≠ "other").
  { intros r Hr. unfold with_cells in Hr.
    apply list_elem_of_fmap in Hr as (raw & -> & _). simpl.
    pose proof (derive_eco_signal_01 (eco_score_col raw)) as He.
    pose proof (derive_organic_label_01 (labels_tags raw)) as Ho.
    destruct (cell_of_01 _ _ He Ho) as (? & ? & ?). done. }
  split; [done|].
  unfold prepare_items.
  induction (with_cells df) as [|r rows IH]; [done|]. simpl.
  rewrite bool_decide_eq_true_2 by (apply Hrows, list_elem_of_here).
  f_equal. apply IH. intros r' Hr'. apply Hrows. by apply list_elem_of_further.
Qed.

(** The classifier does have a fifth outcome for signals outside 0/1. *)
Example cell_of_other : cell_of 2 0 = "other".
Proof. reflexivity. Qed.

Lemma pool_at_cell_pools frame key :
  pool_at (cell_pools frame) key
  = if bool_decide (key ∈ cell_keys)
    then item <$> List.filter (λ r, String.eqb (cell r) key) frame
    else [].
Proof.
  unfold pool_at, cell_pools, cell_keys. simpl.
  destruct (decide (key = "A_label")) as [->|?]; [by rewrite lookup_insert_eq|].
  rewrite lookup_insert_ne by done.
  destruct (decide (key = "A_nolabel")) as [->|?]; [by rewrite lookup_insert_eq|].
  rewrite lookup_insert_ne by done.
  destruct (decide (key = "NA_label")) as [->|?]; [by rewrite lookup_insert_eq|].
  rewrite lookup_insert_ne by done.
  destruct (decide (key = "NA_nolabel")) as [->|?]; [by rewrite lookup_insert_eq|].
  rewrite lookup_insert_ne by done.
  rewrite lookup_empty. simpl.
  rewrite bool_decide_eq_false_2; [done|].
  rewrite !elem_of_cons, elem_of_nil. naive_solver.
Qed.

Lemma cat_pools_fmap (g : option string → gmap string (list Item)) keys cat :
  cat_pools ((λ k, (k, g k)) <$> keys) cat
  = if bool_decide (cat ∈ keys) then g cat else ∅.
Proof.
  induction keys as [|k keys IH]; [done|].
  unfold cat_pools in *. rewrite fmap_cons. cbn [List.find fst].
  destruct (decide (k = cat)) as [->|Hne].
  - rewrite bool_decide_eq_true_2 by done. simpl.
    by rewrite bool_decide_eq_true_2 by apply list_elem_of_here.
  - rewrite bool_decide_eq_false_2 by done. rewrite IH.
    destruct (decide (cat ∈ keys)) as [Hin|Hin].
    + rewrite !bool_decide_eq_true_2; [done|by apply list_elem_of_further|done].
    + rewrite !bool_decide_eq_false_2; [done| |done].
      rewrite elem_of_cons. naive_solver.
Qed.

Lemma filter_filter_sublist {A} (f g : A → bool) (l : list A) :
  List.filter f (List.filter g l) `sublist_of` List.filter f l.
Proof.
  induction l as [|x l IH]; simpl; [constructor|].
  destruct (g x), (f x) eqn:Hf; simpl; rewrite ?Hf; try done.
  - by constructor.
  - by constructor.
Qed.

Lemma cat_pool_sublist (items : list Prepared) (cat : option string) (key : string) :
  pool_at (cat_pools (build_pools items).1 cat) key
    `sublist_of` pool_at (build_pools items).2 key.
Proof.
  unfold build_pools. simpl.
  rewrite (cat_pools_fmap
             (λ c, cell_pools (List.filter (λ r, bool_decide (category (item r) = c)) items))).
  destruct (bool_decide (cat ∈ group_keys items)).
  - rewrite !pool_at_cell_pools. destruct (bool_decide (key ∈ cell_keys)); [|done].
    apply fmap_sublist, filter_filter_sublist.
  - unfold pool_at at 1. rewrite lookup_empty. apply sublist_nil_l.
Qed.

Lemma global_pool_elem_of (items : list Prepared) (key : string) rec :
  rec ∈ pool_at (build_pools items).2 key → ∃ r, r ∈ items ∧ item r = rec ∧ cell r = key.
Proof.
  unfold build_pools. simpl. rewrite pool_at_cell_pools.
  destruct (bool_decide (key ∈ cell_keys)); [|by intros ?%elem_of_nil].
  intros (r & -> & Hr)%list_elem_of_fmap.
  apply list_elem_of_In, filter_In in Hr as [Hr Hc].
  exists r. split; [by apply list_elem_of_In|]. split; [done|].
  by apply String.eqb_eq in Hc.
Qed.

(** C7.  In the output of [build_pools], the pool of a category for a
    cell is a subsequence of the global pool of that cell: every item of
    a category pool is an item of the corresponding global pool. *)
Theorem category_pool_in_global_pool (items : list Prepared)
    (cat : option string) (key : string) :
  pool_at (cat_pools (build_pools items).1 cat) key
    `sublist_of` pool_at (build_pools items).2 key
  ∧ ∀ rec, rec ∈ pool_at (cat_pools (build_pools items).1 cat) key →
           rec ∈ pool_at (build_pools items).2 key.
Proof.
  split; [apply cat_pool_sublist|].
  intros rec Hrec. eapply elem_of_sublist; [done|apply cat_pool_sublist].
Qed.

(** *** Facts on the trial constructor *)

Lemma pass1_pass2 name_counts max_repeats rec :
  pass1 name_counts max_repeats rec = true → pass2 name_counts max_repeats rec = true.
Proof.
  unfold pass1, pass2. destruct (String.eqb (rec_name rec) ""); [done|].
  destruct (Z.leb_spec max_repeats (get_count name_counts (rec_name rec))); [done|].
  intros _. simpl. by apply Z.ltb_lt.
Qed.

Section trial_facts.
Context {G : Type} `{GeneratorLaws G}.

Lemma sample_row_Some pool rng name_counts max_repeats rec :
  (sample_row pool rng name_counts max_repeats).1 = Some rec →
  rec ∈ pool ∧ pass2 name_counts max_repeats rec = true.
Proof.
  rewrite sample_row_scan. pose proof (scan_order_perm pool rng) as Hp.
  destruct (List.find (pass1 _ _) _) eqn:H1.
  - intros [= ->]. apply find_some in H1 as [Hin Hok].
    apply list_elem_of_In in Hin. rewrite Hp in Hin. split; [done|].
    by apply pass1_pass2.
  - intros H2. apply find_some in H2 as [Hin Hok].
    apply list_elem_of_In in Hin. by rewrite Hp in Hin.
Qed.


End trial_facts.

(** *** Facts on [iloc] *)

Lemma iloc_elem_of {A} (rows : list A) idxs x : x ∈ iloc rows idxs → x ∈ rows.
Proof.
  unfold iloc. rewrite list_elem_of_omap. intros (i & _ & Hi).
  by eapply list_elem_of_lookup_2.
Qed.

Lemma iloc_length {A} (rows : list A) idxs :
  (∀ i, i ∈ idxs → (i < length rows)%nat) → length (iloc rows idxs) = length idxs.
Proof.
  unfold iloc. induction idxs as [|i idxs IH]; intros Hin; [done|]. simpl.
  destruct (lookup_lt_is_Some_2 rows i) as [x Hx]; [apply Hin, list_elem_of_here|].
  rewrite Hx. simpl. f_equal. apply IH. intros j Hj. apply Hin. by apply list_elem_of_further.
Qed.

(** *** Pools whose items share one display name *)

Section same_name.
Context {G : Type} `{GeneratorLaws G}.

Variable n : string.
Variable pools_by_cat : list (option string * gmap string (list Item)).
Variable global_pools : gmap string (list Item).

Hypothesis n_nonblank : Str.strip n ≠ "".
Hypothesis cat_named :
  ∀ c key rec, rec ∈ pool_at (cat_pools pools_by_cat c) key → product_name rec = n.
Hypothesis global_named :
  ∀ key rec, rec ∈ pool_at global_pools key → product_name rec = n.
Hypothesis global_filled :
  ∀ key, key ∈ cell_keys → pool_at global_pools key ≠ [].



End same_name.



(** *** Every call of [build_trials_flat] ends in an exception *)

Lemma init_lookup_str (v : Z) (a : string) (b c : PyVal) :
  (list_to_map ((λ k, (key_of k, v)) <$> cells) : gmap Key Z) !! (inr a, b, c) = None.
Proof.
  apply not_elem_of_list_to_map_1. rewrite <- list_fmap_compose.
  intros (k & Hk & _)%list_elem_of_fmap. simpl in Hk. discriminate.
Qed.

Lemma targets_lookup_str (a : string) (b c : PyVal) (d : gmap Key Z)
    (ks : list (Z * Z * string)) :
  d !! (inr a, b, c) = None →
  foldl (λ d k, <[key_of k := at_cell d (key_of k) + 1]> d) d ks !! (inr a, b, c) = None.
Proof.
  revert d. induction ks as [|k ks IH]; intros d Hd; simpl; [done|].
  apply IH. rewrite lookup_insert_ne; [done|]. unfold key_of. discriminate.
Qed.

Section raises.
Context {G : Type} `{GeneratorLaws G}.

Lemma run_cells_raised (T : gmap Key Z) pools_by_cat global_pools max_repeats
    (e : Raised) (order : list Key) :
  foldl (run_cell (G:=G) T pools_by_cat global_pools max_repeats) (inl e) order = inl e.
Proof. induction order as [|k order IH]; [done|]. simpl. apply IH. Qed.

(** The first turn of the loop over the rearranged array looks up a
    key of strings, which [cell_targets] does not hold. *)
Lemma build_trials_flat_outcome (n_trials : Z) pools_by_cat global_pools
    (seed max_repeats_per_name : Z) :
  0 ≤ seed →
  ∃ k, k ∈ cells
       ∧ build_trials_flat n_trials pools_by_cat global_pools seed max_repeats_per_name
         = inl (KeyError (str_row k)).
Proof.
  intros Hseed. unfold build_trials_flat.
  destruct (Z.ltb_spec seed 0) as [Hneg|_]; [lia|].
  destruct (permutation (length cells) (default_rng seed)) as [p rng1].
  pose proof (shuffle_perm (str_row <$> cells) rng1) as Hs.
  destruct (shuffle (str_row <$> cells) rng1) as [order rng2]. cbn [fst] in Hs.
  destruct order as [|r order].
  { apply Permutation_length in Hs. done. }
  assert (Hr : r ∈ str_row <$> cells) by (rewrite <- Hs; apply list_elem_of_here).
  apply list_elem_of_fmap in Hr as (k & -> & Hk).
  exists k. split; [done|]. cbn [foldl].
  unfold run_cell at 2, getitem, str_row.
  rewrite targets_lookup_str by apply init_lookup_str.
  by rewrite run_cells_raised.
Qed.

(** C4, at the code.  No call of [build_trials_flat] returns: a
    negative seed raises [ValueError] in [default_rng], and with any
    other seed the first turn of the loop over [rng.permutation(cells)]
    raises [KeyError], the row of the array being a tuple of strings
    [(str(c), str(l), s)] that [cell_targets] does not hold.  This is so
    whatever the pools hold, exhausted or not, and whatever is
    requested. *)
Theorem build_trials_flat_raises (n_trials : Z) pools_by_cat global_pools
    (seed max_repeats_per_name : Z) :
  (seed < 0 →
   build_trials_flat n_trials pools_by_cat global_pools seed max_repeats_per_name
   = inl ValueError)
  ∧ (0 ≤ seed →
     ∃ k, k ∈ cells
          ∧ build_trials_flat n_trials pools_by_cat global_pools seed max_repeats_per_name
            = inl (KeyError (str_row k)))
  ∧ ∀ b, build_trials_flat n_trials pools_by_cat global_pools seed max_repeats_per_name
         ≠ inr b.
Proof.
  assert (Hneg : seed < 0 →
            build_trials_flat n_trials pools_by_cat global_pools seed max_repeats_per_name
            = inl ValueError).
  { intros Hlt. unfold build_trials_flat.
    by destruct (Z.ltb_spec seed 0) as [_|Hge]; [|lia]. }
  split; [done|]. split; [apply build_trials_flat_outcome|].
  intros b. destruct (Z.lt_ge_cases seed 0) as [Hlt|Hge].
  - by rewrite (Hneg Hlt).
  - destruct (build_trials_flat_outcome n_trials pools_by_cat global_pools seed
                max_repeats_per_name Hge) as (k & _ & ->). done.
Qed.


End raises.

Lemma build_trials_flat_raises_witness :
  0 ≤ 123
  ∧ ∃ k, k ∈ cells
         ∧ build_trials_flat (H:=plain_generator) 160 pair_pools.1 pair_pools.2 123 5
           = inl (KeyError (str_row k)).
Proof.
  assert (Hseed : 0 ≤ 123) by lia.
  split; [exact Hseed|].
  exact (proj1 (proj2 (build_trials_flat_raises (H:=plain_generator) (H0:=Tape.laws _ _)
                         160 pair_pools.1 pair_pools.2 123 5)) Hseed).
Defined.


(** The key the run on the tape generator raises with: the row of the
    first cell. *)
Example build_trials_flat_raises_first :
  build_trials_flat (H:=plain_generator) 8 skyr_pools.1 skyr_pools.2 123 5
  = inl (KeyError (inr "0", inr "0", inr "low")).
Proof. vm_compute. reflexivity. Qed.

(** *** The theorems at concrete inputs *)

Lemma oat_pool_nonblank : names_nonblank oat_pool.
Proof.
  intros rec Hrec. unfold oat_pool in Hrec.
  rewrite !elem_of_cons, elem_of_nil in Hrec.
  destruct Hrec as [->|[->|[]]]; reflexivity.
Qed.

(** [sample_row_two_pass] on [oat_pool], no name used yet, cap 5. *)
Lemma sample_row_two_pass_witness :
  names_nonblank oat_pool
  ∧ (sample_row (H:=plain_generator) oat_pool [] ∅ 5).1
    = two_pass ∅ 5 (scan_order (H:=plain_generator) oat_pool []).
Proof.
  split; [exact oat_pool_nonblank|].
  exact (proj1 (proj2 (sample_row_two_pass (H:=plain_generator) (H0:=Tape.laws _ _)
                         oat_pool [] ∅ 5 oat_pool_nonblank))).
Defined.


(** ** What a trial is made of *)

Lemma cell_of_signals (e o : Z) :
  (cell_of e o = "A_label" → e = 1 ∧ o = 1)
  ∧ (cell_of e o = "A_nolabel" → e = 1 ∧ o = 0)
  ∧ (cell_of e o = "NA_label" → e = 0 ∧ o = 1)
  ∧ (cell_of e o = "NA_nolabel" → e = 0 ∧ o = 0).
Proof.
  unfold cell_of, cell_conditions, np_select.
  destruct (Z.eqb_spec e 1), (Z.eqb_spec e 0), (Z.eqb_spec o 1), (Z.eqb_spec o 0);
    simpl; repeat split; try discriminate; lia.
Qed.

(** The signals of the items of a pool, by the key of the pool. *)
Lemma pool_signals (df : list Named) key rec :
  rec ∈ pool_at (build_pools (prepare_items df)).2 key →
  (key = "A_label" → eco_signal rec = 1 ∧ organic_label rec = 1)
  ∧ (key = "A_nolabel" → eco_signal rec = 1 ∧ organic_label rec = 0)
  ∧ (key = "NA_label" → eco_signal rec = 0 ∧ organic_label rec = 1)
  ∧ (key = "NA_nolabel" → eco_signal rec = 0 ∧ organic_label rec = 0).
Proof.
  intros (r & Hr & <- & <-)%global_pool_elem_of.
  unfold prepare_items in Hr. apply list_elem_of_In, filter_In in Hr as [Hr _].
  apply list_elem_of_In in Hr. unfold with_cells in Hr.
  apply list_elem_of_fmap in Hr as (row & -> & _). simpl.
  apply cell_of_signals.
Qed.

Lemma cat_pool_signals (df : list Named) c key rec :
  rec ∈ pool_at (cat_pools (build_pools (prepare_items df)).1 c) key →
  rec ∈ pool_at (build_pools (prepare_items df)).2 key.
Proof.
  intros Hrec. eapply elem_of_sublist; [exact Hrec|apply cat_pool_sublist].
Qed.

Section trial_parts.
Context {G : Type} `{GeneratorLaws G}.

(** A trial is built from an item of the pool [a_need] and one of the
    pool [na_need], both of one category or both of the global pools,
    each with a name and under the cap. *)
Lemma make_trial_Some (cg la : bool) pools_by_cat global_pools (rng : G)
    name_counts max_repeats tr :
  (make_trial cg la pools_by_cat global_pools rng name_counts max_repeats).1 = Some tr →
  let a_need := if cg then "A_label" else "A_nolabel" in
  let na_need := if cg then "NA_nolabel" else "NA_label" in
  ∃ a na,
    pass2 name_counts max_repeats a = true
    ∧ pass2 name_counts max_repeats na = true
    ∧ ((∃ c, a ∈ pool_at (cat_pools pools_by_cat c) a_need
             ∧ na ∈ pool_at (cat_pools pools_by_cat c) na_need)
       ∨ (a ∈ pool_at global_pools a_need ∧ na ∈ pool_at global_pools na_need))
    ∧ congruent tr = Z.b2z cg ∧ left_is_A tr = Z.b2z la
    ∧ left_name tr = product_name (if la then a else na)
    ∧ right_name tr = product_name (if la then na else a)
    ∧ left_label tr = int_bool (organic_label (if la then a else na))
    ∧ right_label tr = int_bool (organic_label (if la then na else a))
    ∧ left_is_sust tr = int_bool (eco_signal (if la then a else na))
    ∧ right_is_sust tr = int_bool (eco_signal (if la then na else a))
    ∧ salience tr = None.
Proof.
  cbv zeta. unfold make_trial.
  set (a_need := if cg then "A_label" else "A_nolabel").
  set (na_need := if cg then "NA_nolabel" else "NA_label").
  replace (if cg then ("A_label", "NA_nolabel") else ("A_nolabel", "NA_label"))
    with (a_need, na_need) by by destruct cg.
  destruct (shuffle pools_by_cat.*1 rng) as [cats rng1].
  set (chosen := List.find _ cats).
  set (pools := match chosen with Some c => _ | None => _ end).
  assert (Hpools : (∃ c, pools = (pool_at (cat_pools pools_by_cat c) a_need,
                                  pool_at (cat_pools pools_by_cat c) na_need))
                   ∨ pools = (pool_at global_pools a_need, pool_at global_pools na_need)).
  { unfold pools. destruct chosen as [c|]; [|by right].
    destruct (truthy c); [left; by exists c|by right]. }
  destruct pools as [pool_A pool_NA].
  pose proof (sample_row_Some pool_A rng1 name_counts max_repeats) as HA.
  destruct (sample_row pool_A rng1 name_counts max_repeats) as [a rng2].
  pose proof (sample_row_Some pool_NA rng2 name_counts max_repeats) as HNA.
  destruct (sample_row pool_NA rng2 name_counts max_repeats) as [na rng3].
  destruct a as [a|]; [|done]. destruct na as [na|]; [|done].
  destruct (HA a eq_refl) as [HAin HApass]. destruct (HNA na eq_refl) as [HNAin HNApass].
  intros Htr. exists a, na. split; [done|]. split; [done|]. split.
  - destruct Hpools as [[c Hc]|Hg]; simplify_eq; [left; by exists c|by right].
  - destruct la; simpl in Htr; simplify_eq; simpl; done.
Qed.

End trial_parts.

Lemma pass2_spec name_counts max_repeats rec :
  pass2 name_counts max_repeats rec = true →
  Str.nonblank (product_name rec) = true
  ∧ get_count name_counts (Str.strip (product_name rec)) < max_repeats.
Proof.
  unfold pass2, Str.nonblank, rec_name. intros [Hn Hc]%andb_prop.
  split; [done|]. by apply Z.ltb_lt.
Qed.

Section trial_theorems.
Context {G : Type} `{GeneratorLaws G}.

(** The sides of a trial.  On the pools built from a prepared frame, a
    trial that [make_trial] returns shows a sustainable item (eco score
    A or B) on the left when [left_is_A] and on the right otherwise, and
    an unsustainable one on the other side.  In a congruent trial the
    sustainable item carries the organic label and the other does not;
    in an incongruent trial it is the other way round.  Both names are
    non-blank and were under the cap when the trial was made. *)
Theorem trial_pairs_A_with_NA (df : list Named) (cg la : bool) (rng : G)
    name_counts max_repeats tr :
  (make_trial cg la (build_pools (prepare_items df)).1 (build_pools (prepare_items df)).2
     rng name_counts max_repeats).1 = Some tr →
  congruent tr = Z.b2z cg ∧ left_is_A tr = Z.b2z la
  ∧ left_is_sust tr = Z.b2z la ∧ right_is_sust tr = Z.b2z (negb la)
  ∧ left_label tr = Z.b2z (if la then cg else negb cg)
  ∧ right_label tr = Z.b2z (if la then negb cg else cg)
  ∧ Str.nonblank (left_name tr) = true ∧ Str.nonblank (right_name tr) = true
  ∧ get_count name_counts (Str.strip (left_name tr)) < max_repeats
  ∧ get_count name_counts (Str.strip (right_name tr)) < max_repeats.
Proof.
  intros Htr. apply make_trial_Some in Htr. cbv zeta in Htr.
  destruct Htr as (a & na & [Han Hac]%pass2_spec & [Hnan Hnac]%pass2_spec & Hpools
                   & -> & -> & -> & -> & -> & -> & -> & -> & _).
  assert (Hin : a ∈ pool_at (build_pools (prepare_items df)).2
                      (if cg then "A_label" else "A_nolabel")
                ∧ na ∈ pool_at (build_pools (prepare_items df)).2
                         (if cg then "NA_nolabel" else "NA_label")).
  { destruct Hpools as [(c & Ha & Hna)|[Ha Hna]]; [|done].
    split; by eapply cat_pool_signals. }
  destruct Hin as [Ha Hna].
  apply pool_signals in Ha as (HAL & HAN & _ & _).
  apply pool_signals in Hna as (_ & _ & HNL & HNN).
  destruct cg.
  - destruct (HAL eq_refl) as [He Ho]. destruct (HNN eq_refl) as [He' Ho'].
    destruct la; rewrite ?He, ?Ho, ?He', ?Ho'; done.
  - destruct (HAN eq_refl) as [He Ho]. destruct (HNL eq_refl) as [He' Ho'].
    destruct la; rewrite ?He, ?Ho, ?He', ?Ho'; done.
Qed.

End trial_theorems.

(** ** The pools as a partition *)

Lemma insert_cat_perm k l : insert_key k l ≡ₚ k :: l.
Proof.
  induction l as [|x l IH]; simpl; [done|].
  destruct (cat_leb k x); [done|]. by rewrite IH, Permutation_swap.
Qed.

Lemma cat_keys_perm items : group_keys items ≡ₚ remove_dups ((category ∘ item) <$> items).
Proof.
  unfold group_keys.
  induction (remove_dups ((category ∘ item) <$> items)) as [|k l IH]; simpl; [done|].
  by rewrite insert_cat_perm, IH.
Qed.

Lemma cat_keys_NoDup items : NoDup (group_keys items).
Proof. rewrite cat_keys_perm. apply NoDup_remove_dups. Qed.

Lemma cat_keys_elem items r : r ∈ items → category (item r) ∈ group_keys items.
Proof.
  intros Hr. rewrite cat_keys_perm, elem_of_remove_dups, list_elem_of_fmap. by exists r.
Qed.

Lemma cell_keys_NoDup : NoDup cell_keys.
Proof. apply (bool_decide_unpack _). vm_compute. exact I. Qed.

Lemma concat_fmap_fmap {A B K} (f : A → B) (g : K → list A) (keys : list K) :
  concat ((λ k, f <$> g k) <$> keys) = f <$> concat (g <$> keys).
Proof.
  induction keys as [|k keys IH]; [done|].
  rewrite !fmap_cons. cbn [concat]. by rewrite fmap_app, IH.
Qed.

Lemma build_pools_cats items : (build_pools items).1.*1 = group_keys items.
Proof.
  unfold build_pools. cbn [fst]. rewrite <- list_fmap_compose.
  rewrite <- (list_fmap_id (group_keys items)) at 2.
  apply list_fmap_ext. done.
Qed.

Lemma cat_pool_at items c key :
  c ∈ group_keys items → key ∈ cell_keys →
  pool_at (cat_pools (build_pools items).1 c) key
  = item <$> List.filter (λ r, bool_decide (category (item r) = c))
               (List.filter (λ r, String.eqb (cell r) key) items).
Proof.
  intros Hc Hkey. unfold build_pools. cbn [fst].
  rewrite (cat_pools_fmap
             (λ c, cell_pools (List.filter (λ r, bool_decide (category (item r) = c)) items))).
  rewrite bool_decide_eq_true_2 by done.
  rewrite pool_at_cell_pools, bool_decide_eq_true_2 by done.
  f_equal. rewrite !filter_filter_andb. apply filter_ext_elem.
  intros r _. apply andb_comm.
Qed.

(** The pools as a partition.  Of a prepared frame every item lies in
    exactly one of the four global pools, and the pools of the
    categories for a cell cut the global pool of that cell into parts:
    together they hold its items, each as often as it does. *)
Theorem pools_partition (df : list Named) :
  let items := prepare_items df in
  let pools := build_pools items in
  concat (pool_at pools.2 <$> cell_keys) ≡ₚ item <$> items
  ∧ ∀ key, key ∈ cell_keys →
      concat ((λ c, pool_at (cat_pools pools.1 c) key) <$> pools.1.*1)
      ≡ₚ pool_at pools.2 key.
Proof.
  cbv zeta. set (items := prepare_items df). split.
  - assert (Heq : pool_at (build_pools items).2 <$> cell_keys
                  = (λ key, item <$> List.filter (λ r, String.eqb (cell r) key) items)
                      <$> cell_keys).
    { apply Forall_fmap_ext, Forall_forall. intros key Hkey.
      unfold build_pools. cbn [snd]. by rewrite pool_at_cell_pools, bool_decide_eq_true_2. }
    rewrite Heq, concat_fmap_fmap. apply fmap_Permutation.
    apply (concat_filter_keys (λ key r, String.eqb (cell r) key)).
    + apply cell_keys_NoDup.
    + intros r Hr. exists (cell r). split; [|apply String.eqb_refl].
      unfold items, prepare_items in Hr.
      apply list_elem_of_In, filter_In in Hr as [_ Hr]. by apply bool_decide_eq_true in Hr.
    + intros r k k' Hk%String.eqb_eq Hk'%String.eqb_eq. congruence.
  - intros key Hkey. rewrite build_pools_cats.
    assert (Heq : (λ c, pool_at (cat_pools (build_pools items).1 c) key) <$> group_keys items
                  = (λ c, item <$> List.filter (λ r, bool_decide (category (item r) = c))
                                     (List.filter (λ r, String.eqb (cell r) key) items))
                      <$> group_keys items).
    { apply Forall_fmap_ext, Forall_forall. intros c Hc. by apply cat_pool_at. }
    rewrite Heq, concat_fmap_fmap.
    unfold build_pools. cbn [snd]. rewrite pool_at_cell_pools, bool_decide_eq_true_2 by done.
    apply fmap_Permutation.
    apply (concat_filter_keys (λ c r, bool_decide (category (item r) = c))).
    + apply cat_keys_NoDup.
    + intros r Hr. exists (category (item r)). split; [|by apply bool_decide_eq_true].
      apply cat_keys_elem. apply list_elem_of_In, filter_In in Hr as [Hr _].
      by apply list_elem_of_In.
    + intros r k k' Hk%bool_decide_eq_true Hk'%bool_decide_eq_true. congruence.
Qed.

Section sampler_theorems.
Context {G : Type} `{GeneratorLaws G}.

(** The sampler prefers Danish items.  An item [sample_row] returns is
    an item of the pool with a non-blank name and under the cap; when
    the pool has such an item with a Danish flag set, the item returned
    has a Danish flag set; and the generator makes one draw for a pool
    that is not empty and none for an empty pool. *)
Theorem sample_row_prefers_danish pool (rng : G) name_counts max_repeats :
  (∀ rec, (sample_row pool rng name_counts max_repeats).1 = Some rec →
          rec ∈ pool ∧ pass2 name_counts max_repeats rec = true)
  ∧ ((∃ rec, rec ∈ pool ∧ pass1 name_counts max_repeats rec = true) →
     ∃ rec, (sample_row pool rng name_counts max_repeats).1 = Some rec
            ∧ rec ∈ pool ∧ pass1 name_counts max_repeats rec = true
            ∧ (is_lang_da rec || is_danish_like rec) = true)
  ∧ (sample_row pool rng name_counts max_repeats).2
    = (if decide (length pool = 0%nat) then rng
       else (permutation (length pool) rng).2).
Proof.
  split; [|split].
  - intros rec. apply sample_row_Some.
  - intros (rec & Hrec & Hpass). rewrite sample_row_scan.
    destruct (List.find (pass1 name_counts max_repeats) (scan_order pool rng))
      as [rec'|] eqn:Hfind.
    + apply find_some in Hfind as [Hin Hp]. exists rec'.
      split; [done|]. split; [by rewrite <- (scan_order_perm pool rng), list_elem_of_In|].
      split; [done|]. unfold pass1 in Hp.
      destruct (String.eqb _ _); [done|]. by destruct (_ <=? _).
    + exfalso. rewrite find_None_iff in Hfind.
      rewrite (Hfind rec) in Hpass; [done|]. by rewrite scan_order_perm.
  - unfold sample_row. destruct (decide (length pool = 0%nat)); [done|].
    destruct (permutation (length pool) rng) as [idxs rng']. simpl.
    by destruct (List.find _ _).
Qed.

End sampler_theorems.

(** *** The theorems at concrete inputs *)

(** The congruent trial of the breads of [pair_rows], sustainable item
    on the left. *)
Definition bread_trial : Trial :=
  {| congruent := 1; left_is_A := 1;
     left_name := "Rugbrød"; left_cat := "breads"; left_label := 1; left_is_sust := 1;
     right_name := "Toastbrød"; right_cat := "breads"; right_label := 0;
     right_is_sust := 0; salience := None |}.

Lemma trial_pairs_A_with_NA_witness :
  (make_trial (H:=plain_generator) true true
     (build_pools (prepare_items pair_rows)).1 (build_pools (prepare_items pair_rows)).2
     [] ∅ 5).1 = Some bread_trial
  ∧ left_is_sust bread_trial = 1 ∧ right_is_sust bread_trial = 0.
Proof.
  assert (Htr : (make_trial (H:=plain_generator) true true
                   (build_pools (prepare_items pair_rows)).1
                   (build_pools (prepare_items pair_rows)).2 [] ∅ 5).1 = Some bread_trial)
    by (vm_compute; reflexivity).
  split; [exact Htr|].
  pose proof (trial_pairs_A_with_NA (H:=plain_generator) (H0:=Tape.laws _ _)
                pair_rows true true [] ∅ 5 bread_trial Htr)
    as (_ & _ & Hl & Hr & _).
  split; [exact Hl|exact Hr].
Defined.

Lemma oat_pool_danish : ∃ rec, rec ∈ oat_pool ∧ pass1 ∅ 5 rec = true.
Proof.
  exists (mkItem "Havredrik" (Some "drinks") (Some "b") 1 1 true false).
  split; [|reflexivity]. unfold oat_pool. apply list_elem_of_further, list_elem_of_here.
Qed.

Lemma sample_row_prefers_danish_witness :
  (∃ rec, rec ∈ oat_pool ∧ pass1 ∅ 5 rec = true)
  ∧ ∃ rec, (sample_row (H:=plain_generator) oat_pool [] ∅ 5).1 = Some rec
           ∧ rec ∈ oat_pool ∧ pass1 ∅ 5 rec = true
           ∧ (is_lang_da rec || is_danish_like rec) = true.
Proof.
  split; [exact oat_pool_danish|].
  exact (proj1 (proj2 (sample_row_prefers_danish (H:=plain_generator) (H0:=Tape.laws _ _)
                         oat_pool [] ∅ 5)) oat_pool_danish).
Defined.
End Functions.

(** * [03a_build_stimulus_set.py]: the single-item stimulus set *)

Module BuildStimulusSet.

(** A row of the flags file [off_flags_dk.csv], with the columns the
    script reads and writes.  [organic_badge], [eco_signal], [lang_da]
    and [green_words] hold integers; a missing [eco_score] or [category]
    is [None]. *)
Record Row := mkRow {
  product_name : string;
  organic_badge : Z;
  eco_signal : Z;
  eco_score : option string;
  lang_da : Z;
  green_words : Z;
  category : option string;
}.

(** A row of [stim_out]: the item's number, its salience and the columns
    of the flags row. *)
Record Stim := mkStim {
  item_id : Z;
  salience : string;
  source : Row;
}.

(** The constants the script sets. *)
Record Config := mkConfig {
  target_total : Z;
  random_seed : Z;
  target_per_cell : Z;
}.

Definition config : Config :=
  {| target_total := 240; random_seed := 637; target_per_cell := 20 |}.

(** The ways the script stops: the [SystemExit] of the balance check,
    with the numbers its message prints, and the [ValueError] of numpy on
    a seed it does not take. *)
Inductive Exit :=
  | SystemExit (target_per_cell n_per_cell max_balanced_per_cell : Z)
               (available_per_cell : list (Z * Z * Z))
  | ValueError (seed : Z).

(** [df["cell"]] *)
Definition cell (r : Row) : Z * Z := (organic_badge r, eco_signal r).

Definition all_cells : list (Z * Z) := [(0, 0); (0, 1); (1, 0); (1, 1)].

(** [df["cell"] == cell], on one row *)
Definition in_cell (c : Z * Z) (r : Row) : bool := bool_decide (cell r = c).

(** The two filters: [lang_da == 1] and [eco_score.notna()]. *)
Definition usable (df : list Row) : list Row :=
  List.filter (λ r, bool_decide (is_Some (eco_score r)))
    (List.filter (λ r, lang_da r =? 1) df).

(** [{c: cell_counts.get(c, 0) for c in all_cells}], in the order of the
    dict. *)
Definition available_per_cell (df : list Row) : list (Z * Z * Z) :=
  (λ c, (c, Z.of_nat (length (List.filter (in_cell c) df)))) <$> all_cells.

(** [min] of a list that is not empty *)
Definition py_min (l : list Z) : Z :=
  match l with
  | [] => 0
  | x :: l' => foldl Z.min x l'
  end.

Definition n_per_cell (cfg : Config) : Z := target_per_cell cfg * 2.

Definition max_balanced_per_cell (df : list Row) : Z :=
  py_min (available_per_cell df).*2.

(** The seeds [numpy.random.RandomState] takes. *)
Definition legacy_seed_ok (seed : Z) : bool := (0 <=? seed) && (seed <? 2 ^ 32).

(** [name_overrides_by_item_id] *)
Definition name_overrides_by_item_id : list (Z * string) :=
  [ (20, "Tun på dåse");
    (22, "Hvidløg");
    (47, "Rustikki Bread Sticks Blå Birkes");
    (54, "Skyr med frugt");
    (61, "ØGO Hvedemel");
    (68, "Økologisk kakao soya drik");
    (76, "Yalla! Drikkeyoghurt, Jordbær & granatæble laktosefri");
    (78, "Cocio classic chokolademælk");
    (105, "Hvidløgsdressing");
    (120, "Burger boller");
    (150, "Frisk rødkål") ].

(** [item_id.map(name_overrides_by_item_id).fillna(product_name)], on
    one row *)
Definition override_name (id : Z) (r : Row) : Row :=
  match List.find (λ kv, kv.1 =? id) name_overrides_by_item_id with
  | Some kv =>
      {| product_name := kv.2; organic_badge := organic_badge r;
         eco_signal := eco_signal r; eco_score := eco_score r;
         lang_da := lang_da r; green_words := green_words r;
         category := category r |}
  | None => r
  end.

(** [stim.loc[idxs, "salience"] = v], on the column *)
Definition set_at (col : list string) (idxs : list nat) (v : string) : list string :=
  foldl (λ col i, <[i := v]> col) col idxs.

(** [stim.index[stim["cell"] == cell].to_list()] *)
Definition index_of_cell (stim : list Row) (c : Z * Z) : list nat :=
  List.filter (λ i, match stim !! i with Some r => in_cell c r | None => false end)
    (seq 0 (length stim)).

(** The sanity fill of an empty salience with "low". *)
Definition fill_empty (col : list string) : list string :=
  (λ s, if String.eqb s "" then "low" else s) <$> col.

(** [item_id = arange(1, len + 1)], the columns of the output and the
    name overrides. *)
Definition number_rows (stim : list (Row * string)) : list Stim :=
  imap (λ i rs, let id := Z.of_nat i + 1 in
                {| item_id := id; salience := rs.2; source := override_name id rs.1 |})
       stim.

Section script.
Context {G : Type} `{Generator G}.

(** [hash(cell)] of a pair of integers. *)
Variable hash : Z * Z → Z.

(** The loop that samples [n_per_cell] rows from each cell, each with
    [random_state = random_seed + hash(cell) % 2**32]. *)
Fixpoint sample_cells (cfg : Config) (cells : list (Z * Z)) (df : list Row)
    (w : World G) : (Exit + list (list Row)) * World G :=
  match cells with
  | [] => (inr [], w)
  | c :: cells' =>
      let sub := List.filter (in_cell c) df in
      let take :=
        if Z.of_nat (length sub) <? n_per_cell cfg
        then length sub
        else Z.to_nat (n_per_cell cfg) in
      let seed_offset := hash c `mod` 2 ^ 32 in
      let seed := random_seed cfg + seed_offset in
      if legacy_seed_ok seed then
        let '(sub_sampled, w) := sample sub take (Some seed) w in
        match sample_cells cfg cells' df w with
        | (inr samples, w) => (inr (sub_sampled :: samples), w)
        | (inl e, w) => (inl e, w)
        end
      else (inl (ValueError seed), w)
  end.

(** One turn of the salience loop. *)
Definition assign_cell (stim : list Row) (c : Z * Z) (st : list string * G)
    : list string * G :=
  let '(col, rng) := st in
  let idx := index_of_cell stim c in
  let n := length idx in
  if (n =? 0)%nat then (col, rng)
  else
    let '(idx, rng) := shuffle idx rng in
    let half := (n / 2)%nat in
    let low_idx := take half idx in
    let high_idx := drop half idx in
    (set_at (set_at col low_idx "low") high_idx "high", rng).

Definition assign_salience (stim : list Row) (rng : G) : list string * G :=
  foldl (λ st c, assign_cell stim c st) (replicate (length stim) "", rng) all_cells.

(** The script, from the frame it loads to the frame it saves. *)
Definition build_stimulus_set (cfg : Config) (df : list Row) (w : World G)
    : (Exit + list Stim) * World G :=
  let df := usable df in
  let available := available_per_cell df in
  if max_balanced_per_cell df <? n_per_cell cfg then
    (inl (SystemExit (target_per_cell cfg) (n_per_cell cfg)
            (max_balanced_per_cell df) available), w)
  else if random_seed cfg <? 0 then (inl (ValueError (random_seed cfg)), w)
  else
    let rng := default_rng (random_seed cfg) in
    match sample_cells cfg all_cells df w with
    | (inl e, w) => (inl e, w)
    | (inr samples, w) =>
        let stim := concat samples in
        let '(col, rng) := assign_salience stim rng in
        let col := fill_empty col in
        if legacy_seed_ok (random_seed cfg) then
          let '(stim, w) :=
            sample (zip stim col) (length stim) (Some (random_seed cfg)) w in
          (inr (number_rows stim), w)
        else (inl (ValueError (random_seed cfg)), w)
    end.

End script.

(** The seeds of a run are all seeds numpy takes. *)
Definition seeds_ok (hash : Z * Z → Z) (cfg : Config) : bool :=
  legacy_seed_ok (random_seed cfg)
  && forallb (λ c, legacy_seed_ok (random_seed cfg + hash c `mod` 2 ^ 32)) all_cells.

(** The number of usable rows of a cell. *)
Definition available (df : list Row) (c : Z * Z) : Z :=
  Z.of_nat (length (List.filter (in_cell c) (usable df))).

(** The number of the listed positions at which the column holds [s]. *)
Definition sal_count (col : list string) (idxs : list nat) (s : string) : nat :=
  length (List.filter (λ i, bool_decide (col !! i = Some s)) idxs).

(** The rows of a run that ended well. *)
Definition rows_of (out : Exit + list Stim) : list Stim :=
  match out with
  | inr rows => rows
  | inl _ => []
  end.

(** The number of output rows of a cell, and of a cell and a salience. *)
Definition count_cell (rows : list Stim) (c : Z * Z) : nat :=
  length (List.filter (λ r, in_cell c (source r)) rows).

Definition count_salience (rows : list Stim) (c : Z * Z) (s : string) : nat :=
  length (List.filter (λ r, in_cell c (source r) && String.eqb (salience r) s) rows).

(** The per-cell count in the words of the specification: [floor(T / 4)]
    bounded above by the smallest cell. *)
Definition per_cell_of_total (T : Z) (available : list Z) : Z :=
  Z.min (T / 4) (py_min available).

(** *** Example data *)

(** A frame with two usable rows in each cell and two rows the filters
    drop. *)
Definition small_frame : list Row :=
  [ mkRow "Havregryn" 1 1 (Some "a") 1 0 (Some "cereals");
    mkRow "Rugbrød" 1 1 (Some "b") 1 1 (Some "breads");
    mkRow "Cornflakes" 0 0 (Some "d") 1 0 (Some "cereals");
    mkRow "Toastbrød" 0 0 (Some "e") 1 0 (Some "breads");
    mkRow "Skyr" 0 1 (Some "a") 1 0 (Some "dairies");
    mkRow "Kartofler" 0 1 (Some "b") 1 0 (Some "vegetables");
    mkRow "Øko chips" 1 0 (Some "d") 1 1 (Some "snacks");
    mkRow "Øko cola" 1 0 (Some "e") 1 1 (Some "beverages");
    mkRow "Baguette" 0 0 (Some "c") 0 0 (Some "breads");
    mkRow "Remoulade" 0 0 None 1 0 (Some "sauces") ].

(** One stimulus for each of the eight cells, so two rows of each of
    the four. *)
Definition small_config : Config :=
  {| target_total := 240; random_seed := 637; target_per_cell := 1 |}.

(** A hash that sends every cell to 0. *)
Definition zero_hash (c : Z * Z) : Z := 0.

Definition still_world : World Tape.tape := mkWorld [] [].

(** ** Facts on sampling and counting *)

Lemma iloc_take_length {A} (rows : list A) (p : list nat) n :
  p ≡ₚ seq 0 (length rows) → (n ≤ length rows)%nat →
  length (iloc rows (take n p)) = n.
Proof.
  intros Hp Hn. rewrite Functions.iloc_length.
  - rewrite length_take_le; [done|]. by rewrite Hp, length_seq.
  - intros i Hi. apply elem_of_take in Hi as (k & Hk & _).
    apply list_elem_of_lookup_2 in Hk. rewrite Hp in Hk.
    apply elem_of_seq in Hk. lia.
Qed.

Section sample_facts.
Context {G : Type} `{GeneratorLaws G}.

Lemma sample_seeded_world {A} (rows : list A) n s (w : World G) :
  (sample rows n (Some s) w).2 = w.
Proof. unfold sample. by destruct (permutation _ _). Qed.

Lemma sample_submseteq {A} (rows : list A) n random_state (w : World G) :
  (sample rows n random_state w).1 ⊆+ rows.
Proof.
  unfold sample. destruct random_state as [s|].
  - pose proof (permutation_perm (length rows) (RandomState s)) as Hp.
    destruct (permutation _ _) as [p g]. by apply iloc_take_submseteq.
  - pose proof (permutation_perm (length rows) (global_state w)) as Hp.
    destruct (permutation _ _) as [p g]. by apply iloc_take_submseteq.
Qed.

Lemma sample_length {A} (rows : list A) n random_state (w : World G) :
  (n ≤ length rows)%nat → length (sample rows n random_state w).1 = n.
Proof.
  intros Hn. unfold sample. destruct random_state as [s|].
  - pose proof (permutation_perm (length rows) (RandomState s)) as Hp.
    destruct (permutation _ _) as [p g]. by apply iloc_take_length.
  - pose proof (permutation_perm (length rows) (global_state w)) as Hp.
    destruct (permutation _ _) as [p g]. by apply iloc_take_length.
Qed.

Lemma sample_all_perm {A} (rows : list A) random_state (w : World G) :
  (sample rows (length rows) random_state w).1 ≡ₚ rows.
Proof.
  apply submseteq_length_Permutation; [apply sample_submseteq|].
  by rewrite sample_length.
Qed.

End sample_facts.

(** ** The balance check *)

Lemma foldl_min_le (a : Z) (l : list Z) :
  foldl Z.min a l ≤ a ∧ ∀ x, x ∈ l → foldl Z.min a l ≤ x.
Proof.
  revert a. induction l as [|y l IH]; intros a; simpl.
  - split; [lia|]. by intros x ?%elem_of_nil.
  - destruct (IH (Z.min a y)) as [IH1 IH2]. split; [lia|].
    intros x [->|Hx]%elem_of_cons; [lia|by apply IH2].
Qed.

Lemma foldl_min_elem (a : Z) (l : list Z) : foldl Z.min a l ∈ a :: l.
Proof.
  revert a. induction l as [|y l IH]; intros a; simpl.
  - apply list_elem_of_here.
  - specialize (IH (Z.min a y)). apply elem_of_cons in IH as [IH|IH].
    + rewrite IH. destruct (Z.min_spec a y) as [[_ ->]|[_ ->]].
      * apply list_elem_of_here.
      * apply list_elem_of_further, list_elem_of_here.
    + by do 2 apply list_elem_of_further.
Qed.

Lemma py_min_le (l : list Z) x : x ∈ l → py_min l ≤ x.
Proof.
  destruct l as [|a l]; [by intros ?%elem_of_nil|]. simpl.
  destruct (foldl_min_le a l) as [H1 H2].
  intros [->|Hx]%elem_of_cons; [done|by apply H2].
Qed.

Lemma py_min_elem (l : list Z) : l ≠ [] → py_min l ∈ l.
Proof. destruct l as [|a l]; [done|]. intros _. apply foldl_min_elem. Qed.

Lemma available_elem (df : list Row) c k :
  (c, k) ∈ available_per_cell df
  ↔ c ∈ all_cells ∧ k = Z.of_nat (length (List.filter (in_cell c) df)).
Proof.
  unfold available_per_cell. rewrite list_elem_of_fmap. split.
  - intros (c' & [= -> ->] & Hc). done.
  - intros [Hc ->]. by exists c.
Qed.

(** The smallest cell is one of the four, and no cell is smaller. *)
Lemma max_balanced_spec (df : list Row) :
  (∃ c, c ∈ all_cells
        ∧ max_balanced_per_cell df = Z.of_nat (length (List.filter (in_cell c) df)))
  ∧ ∀ c, c ∈ all_cells →
      max_balanced_per_cell df ≤ Z.of_nat (length (List.filter (in_cell c) df)).
Proof.
  unfold max_balanced_per_cell. split.
  - assert (Hin : py_min (available_per_cell df).*2 ∈ (available_per_cell df).*2)
      by (apply py_min_elem; discriminate).
    apply list_elem_of_fmap in Hin as ([c k] & Hk & Hin). simpl in Hk.
    apply available_elem in Hin as [Hc ->]. by exists c.
  - intros c Hc. apply py_min_le. apply list_elem_of_fmap.
    exists (c, Z.of_nat (length (List.filter (in_cell c) df))). split; [done|].
    by apply available_elem.
Qed.

Section exit_facts.
Context {G : Type} `{Generator G}.
Variable hash : Z * Z → Z.

Lemma sample_cells_exit cfg cells df (w w' : World G) e :
  sample_cells hash cfg cells df w = (inl e, w') → ∃ seed, e = ValueError seed.
Proof.
  revert w. induction cells as [|c cells IH]; intros w; cbn [sample_cells]; [done|].
  cbv zeta. destruct (legacy_seed_ok _); [|intros [= <- _]; by eexists].
  destruct (sample (A:=Row) _ _ _ _) as [smp w1].
  destruct (sample_cells hash cfg cells df w1) as [[e'|samples] w2] eqn:Hrec.
  - intros [= <- <-]. by eapply IH.
  - done.
Qed.

(** The balance check.  The script stops with [SystemExit] exactly when
    one of the four cells has fewer than [n_per_cell] usable rows.  The
    exit reports the size [k] of the smallest cell, which is the count
    listed for one of the cells, and the counts of all four cells; no
    generator has been made or used. *)
Theorem balance_check_exit cfg (df : list Row) (w : World G) :
  (∃ c, c ∈ all_cells ∧ available df c < n_per_cell cfg)
  ↔ ∃ k, build_stimulus_set hash cfg df w
         = (inl (SystemExit (target_per_cell cfg) (n_per_cell cfg) k
                   (available_per_cell (usable df))), w)
       ∧ k < n_per_cell cfg
       ∧ (∃ c, c ∈ all_cells ∧ (c, k) ∈ available_per_cell (usable df))
       ∧ ∀ c, c ∈ all_cells → k ≤ available df c.
Proof.
  destruct (max_balanced_spec (usable df)) as [(c0 & Hc0 & Hmin) Hle].
  unfold build_stimulus_set, available.
  destruct (Z.ltb_spec (max_balanced_per_cell (usable df)) (n_per_cell cfg)) as [Hlt|Hge].
  - split.
    + intros _. exists (max_balanced_per_cell (usable df)).
      split; [done|]. split; [done|]. split; [|done].
      exists c0. split; [done|]. by apply available_elem.
    + intros _. exists c0. split; [done|]. by rewrite <- Hmin.
  - split.
    + intros (c & Hc & Hlt). specialize (Hle c Hc). lia.
    + intros (k & Hrun & _). exfalso.
      destruct (random_seed cfg <? 0); [done|].
      destruct (sample_cells hash cfg all_cells (usable df) w)
        as [[e|samples] w1] eqn:Hs.
      * apply sample_cells_exit in Hs as [seed ->]. done.
      * destruct (assign_salience _ _) as [col rng].
        destruct (legacy_seed_ok _); [|done].
        by destruct (sample (A:=Row * string) _ _ _ _).
Qed.

End exit_facts.

(** ** A run that passes the balance check *)

Lemma set_at_length (col : list string) idxs v : length (set_at col idxs v) = length col.
Proof.
  unfold set_at. revert col. induction idxs as [|i idxs IH]; intros col; simpl; [done|].
  by rewrite IH, length_insert.
Qed.

Lemma fill_empty_length (col : list string) : length (fill_empty col) = length col.
Proof. unfold fill_empty. by rewrite length_fmap. Qed.

Section run_facts.
Context {G : Type} `{GeneratorLaws G}.
Variable hash : Z * Z → Z.

Lemma assign_cell_length stim c (st : list string * G) :
  length (assign_cell stim c st).1 = length st.1.
Proof.
  unfold assign_cell. destruct st as [col rng].
  destruct (_ =? _)%nat; [done|].
  destruct (shuffle _ _) as [idx rng']. simpl. by rewrite !set_at_length.
Qed.

Lemma assign_salience_length stim (rng : G) :
  length (assign_salience stim rng).1 = length stim.
Proof.
  unfold assign_salience.
  assert (Hgen : ∀ cells (st : list string * G),
            length (foldl (λ st c, assign_cell stim c st) st cells).1 = length st.1).
  { induction cells as [|c cells IH]; intros st; simpl; [done|].
    by rewrite IH, assign_cell_length. }
  rewrite Hgen. simpl. by rewrite length_replicate.
Qed.

Lemma sample_cells_ok cfg cells df (w : World G) :
  (∀ c, c ∈ cells → legacy_seed_ok (random_seed cfg + hash c `mod` 2 ^ 32) = true) →
  (∀ c, c ∈ cells → n_per_cell cfg ≤ Z.of_nat (length (List.filter (in_cell c) df))) →
  ∃ samples, sample_cells hash cfg cells df w = (inr samples, w)
    ∧ Forall2 (λ c smp, smp ⊆+ List.filter (in_cell c) df
                         ∧ length smp = Z.to_nat (n_per_cell cfg)) cells samples.
Proof.
  induction cells as [|c cells IH]; intros Hseed Havail; cbn [sample_cells].
  - exists []. split; [done|constructor].
  - cbv zeta. rewrite (Hseed c) by apply list_elem_of_here.
    pose proof (Havail c (list_elem_of_here _ _)) as Hc.
    destruct (Z.ltb_spec (Z.of_nat (length (List.filter (in_cell c) df))) (n_per_cell cfg))
      as [Hlt|_]; [lia|].
    set (sub := List.filter (in_cell c) df) in *.
    set (seed := random_seed cfg + hash c `mod` 2 ^ 32).
    pose proof (sample_seeded_world sub (Z.to_nat (n_per_cell cfg)) seed w) as Hw.
    pose proof (sample_submseteq sub (Z.to_nat (n_per_cell cfg)) (Some seed) w) as Hsub.
    pose proof (sample_length sub (Z.to_nat (n_per_cell cfg)) (Some seed) w) as Hlen.
    destruct (sample sub _ _ _) as [smp w1]. simpl in Hw, Hsub, Hlen. subst w1.
    destruct IH as (samples & -> & Hall).
    + intros c' Hc'. apply Hseed. by apply list_elem_of_further.
    + intros c' Hc'. apply Havail. by apply list_elem_of_further.
    + exists (smp :: samples). split; [done|]. constructor; [|done].
      split; [done|]. apply Hlen. lia.
Qed.

Lemma seeds_ok_spec cfg :
  seeds_ok hash cfg = true →
  legacy_seed_ok (random_seed cfg) = true
  ∧ ∀ c, c ∈ all_cells → legacy_seed_ok (random_seed cfg + hash c `mod` 2 ^ 32) = true.
Proof.
  unfold seeds_ok. intros [H1 H2]%andb_prop. split; [done|].
  intros c Hc. rewrite forallb_forall in H2. apply H2. by apply list_elem_of_In.
Qed.

(** The shape of a run that passes the balance check with seeds numpy
    takes: four samples, one for each cell and of [n_per_cell] rows,
    their concatenation with its salience column, rearranged and
    numbered. *)
Lemma build_stimulus_set_ok cfg df (w : World G) :
  seeds_ok hash cfg = true →
  (∀ c, c ∈ all_cells → n_per_cell cfg ≤ available df c) →
  ∃ samples stim',
    build_stimulus_set hash cfg df w = (inr (number_rows stim'), w)
    ∧ Forall2 (λ c smp, smp ⊆+ List.filter (in_cell c) (usable df)
                         ∧ length smp = Z.to_nat (n_per_cell cfg)) all_cells samples
    ∧ stim' ≡ₚ zip (concat samples)
                   (fill_empty (assign_salience (concat samples)
                                  (default_rng (random_seed cfg))).1).
Proof.
  intros [Hseed Hseeds]%seeds_ok_spec Havail. unfold build_stimulus_set.
  destruct (max_balanced_spec (usable df)) as [(c0 & Hc0 & Hmin) _].
  destruct (Z.ltb_spec (max_balanced_per_cell (usable df)) (n_per_cell cfg)) as [Hlt|_].
  { specialize (Havail c0 Hc0). unfold available in Havail. lia. }
  destruct (Z.ltb_spec (random_seed cfg) 0) as [Hneg|_].
  { unfold legacy_seed_ok in Hseed. lia. }
  destruct (sample_cells_ok cfg all_cells (usable df) w Hseeds Havail)
    as (samples & -> & Hall).
  exists samples.
  pose proof (assign_salience_length (concat samples) (default_rng (random_seed cfg)))
    as Hlen.
  destruct (assign_salience _ _) as [col rng]. cbn [fst] in *.
  rewrite Hseed.
  set (l := zip (concat samples) (fill_empty col)).
  assert (Hl : length (concat samples) = length l).
  { unfold l. rewrite length_zip_with, fill_empty_length. lia. }
  rewrite Hl.
  pose proof (sample_seeded_world l (length l) (random_seed cfg) w) as Hw.
  pose proof (sample_all_perm l (Some (random_seed cfg)) w) as Hp.
  destruct (sample l _ _ _) as [stim' w1]. simpl in Hw, Hp. subst w1.
  exists stim'. done.
Qed.

End run_facts.

(** ** Counting the rows of a cell *)

Lemma override_name_cell id r : cell (override_name id r) = cell r.
Proof. unfold override_name. by destruct (List.find _ _). Qed.

Lemma submseteq_in_cell c (smp df : list Row) x :
  smp ⊆+ List.filter (in_cell c) df → x ∈ smp → in_cell c x = true.
Proof.
  intros Hsub Hx. eapply elem_of_submseteq in Hx; [|done].
  apply list_elem_of_In, filter_In in Hx. tauto.
Qed.

Lemma in_cell_other c c' r : in_cell c r = true → c ≠ c' → in_cell c' r = false.
Proof.
  unfold in_cell. intros Hc%bool_decide_eq_true Hne.
  apply bool_decide_eq_false. congruence.
Qed.

(** The rows of a cell in the concatenated samples are the sample of
    that cell. *)
Lemma concat_samples_cell (df : list Row) (n : nat) cells samples c :
  NoDup cells →
  Forall2 (λ c smp, smp ⊆+ List.filter (in_cell c) df ∧ length smp = n) cells samples →
  length (List.filter (in_cell c) (concat samples))
  = if bool_decide (c ∈ cells) then n else 0%nat.
Proof.
  intros Hnd Hall. induction Hall as [|c0 smp cells samples [Hsub Hlen] _ IH]; [done|].
  apply NoDup_cons in Hnd as [Hfresh Hnd]. specialize (IH Hnd).
  cbn [concat]. rewrite List.filter_app, length_app, IH.
  destruct (decide (c = c0)) as [->|Hne].
  - rewrite filter_all by (intros x Hx; by eapply submseteq_in_cell).
    rewrite (bool_decide_eq_false_2 (c0 ∈ cells)) by done.
    rewrite bool_decide_eq_true_2 by apply list_elem_of_here. lia.
  - rewrite filter_none.
    + simpl. apply (f_equal (λ b : bool, if b then n else 0%nat)).
      apply bool_decide_ext. rewrite elem_of_cons. naive_solver.
    + intros x Hx. eapply in_cell_other; [by eapply submseteq_in_cell|done].
Qed.

Lemma all_cells_NoDup : NoDup all_cells.
Proof. apply (bool_decide_unpack _). vm_compute. exact I. Qed.

Lemma concat_samples_length (df : list Row) (n : nat) cells samples :
  Forall2 (λ c smp, smp ⊆+ List.filter (in_cell c) df ∧ length smp = n) cells samples →
  length (concat samples) = (length cells * n)%nat.
Proof.
  induction 1 as [|c smp cells samples [_ Hn] _ IH]; [done|].
  cbn [concat length]. rewrite length_app, IH, Hn. lia.
Qed.

Lemma number_rows_ids (stim : list (Row * string)) :
  item_id <$> number_rows stim = (λ i, Z.of_nat i + 1) <$> seq 0 (length stim).
Proof.
  unfold number_rows. rewrite fmap_imap.
  assert (Hgen : ∀ (l : list (Row * string)) (k : nat),
            imap (λ i _, Z.of_nat (k + i) + 1) l
            = (λ i, Z.of_nat i + 1) <$> seq k (length l)).
  { induction l as [|x l IH]; intros k; [done|].
    rewrite imap_cons. simpl. rewrite Nat.add_0_r. f_equal.
    rewrite <- IH. apply imap_ext. intros i y _. simpl. f_equal. f_equal. lia. }
  rewrite <- (Hgen stim 0%nat). apply imap_ext. intros i y _. done.
Qed.

(** ** What a run returns *)

Section outcome.
Context {G : Type} `{GeneratorLaws G}.
Variable hash : Z * Z → Z.

(** The rows of a run, cell by cell. *)
Lemma run_cells cfg (df : list Row) (w : World G) :
  seeds_ok hash cfg = true →
  (∀ c, c ∈ all_cells → n_per_cell cfg ≤ available df c) →
  ∃ rows, build_stimulus_set hash cfg df w = (inr rows, w)
    ∧ (∀ c, c ∈ all_cells → count_cell rows c = Z.to_nat (n_per_cell cfg))
    ∧ length rows = (4 * Z.to_nat (n_per_cell cfg))%nat
    ∧ item_id <$> rows = (λ i, Z.of_nat i + 1) <$> seq 0 (length rows).
Proof.
  intros Hseeds Havail.
  destruct (build_stimulus_set_ok hash cfg df w Hseeds Havail)
    as (samples & stim' & Hrun & Hall & Hperm).
  exists (number_rows stim'). split; [done|].
  pose proof (assign_salience_length (concat samples) (default_rng (random_seed cfg)))
    as Hcol.
  set (col := fill_empty _) in Hperm.
  assert (Hlen : length col = length (concat samples))
    by (unfold col; by rewrite fill_empty_length).
  split; [|split].
  - intros c Hc. unfold count_cell, number_rows.
    rewrite (filter_imap_length _ _ (λ rs, in_cell c rs.1)).
    + rewrite (filter_length_perm _ _ _ Hperm).
      rewrite filter_zip_fst_length by lia.
      rewrite (concat_samples_cell _ _ _ _ c all_cells_NoDup Hall).
      by rewrite bool_decide_eq_true_2.
    + intros i rs. unfold in_cell. simpl. by rewrite override_name_cell.
  - unfold number_rows. rewrite length_imap, Hperm, length_zip_with.
    rewrite (concat_samples_length _ _ _ _ Hall) in *.
    change (length all_cells) with 4%nat in *. lia.
  - rewrite number_rows_ids. unfold number_rows. by rewrite length_imap.
Qed.

End outcome.

(** ** The salience column *)

Lemma set_at_lookup_notin (col : list string) idxs v i :
  i ∉ idxs → set_at col idxs v !! i = col !! i.
Proof.
  unfold set_at. revert col. induction idxs as [|j idxs IH]; intros col Hi; [done|].
  apply not_elem_of_cons in Hi as [Hij Hi]. simpl.
  rewrite IH by done. by apply list_lookup_insert_ne.
Qed.

Lemma set_at_lookup_in (col : list string) idxs v i :
  i ∈ idxs → (i < length col)%nat → set_at col idxs v !! i = Some v.
Proof.
  revert col. induction idxs as [|j idxs IH]; intros col Hi Hlt.
  - by apply elem_of_nil in Hi.
  - change (set_at col (j :: idxs) v) with (set_at (<[j:=v]> col) idxs v).
    destruct (decide (i ∈ idxs)) as [Hin|Hout].
    + apply IH; [done|]. by rewrite length_insert.
    + rewrite set_at_lookup_notin by done.
      apply elem_of_cons in Hi as [->|Hi]; [|done].
      by apply list_lookup_insert_eq.
Qed.

Lemma index_of_cell_elem stim c i :
  i ∈ index_of_cell stim c ↔ ∃ r, stim !! i = Some r ∧ in_cell c r = true.
Proof.
  unfold index_of_cell. rewrite list_elem_of_In, filter_In, <- list_elem_of_In, elem_of_seq.
  split.
  - intros [_ Hi]. destruct (stim !! i) as [r|]; [by exists r|done].
  - intros (r & Hr & Hc). rewrite Hr. split; [|done].
    apply lookup_lt_Some in Hr. lia.
Qed.

Lemma index_of_cell_NoDup stim c : NoDup (index_of_cell stim c).
Proof. unfold index_of_cell. apply filter_NoDup, NoDup_seq. Qed.

Lemma index_of_cell_length stim c :
  length (index_of_cell stim c) = length (List.filter (in_cell c) stim).
Proof. unfold index_of_cell. by rewrite <- filter_positions. Qed.

Lemma index_of_cell_disjoint stim c c' i :
  i ∈ index_of_cell stim c → i ∈ index_of_cell stim c' → c = c'.
Proof.
  rewrite !index_of_cell_elem. intros (r & Hr & Hc) (r' & Hr' & Hc').
  simplify_eq. unfold in_cell in *.
  apply bool_decide_eq_true in Hc, Hc'. congruence.
Qed.

Lemma sal_count_ext col col' idxs s :
  (∀ i, i ∈ idxs → col' !! i = col !! i) → sal_count col' idxs s = sal_count col idxs s.
Proof.
  intros Hext. unfold sal_count. f_equal. apply filter_ext_elem.
  intros i Hi. by rewrite Hext.
Qed.

Section salience_facts.
Context {G : Type} `{GeneratorLaws G}.

(** One turn of the salience loop touches the rows of its cell only,
    and gives the floor half of them "low" and the others "high". *)
Lemma assign_cell_spec stim c col (rng : G) :
  length col = length stim →
  let col' := (assign_cell stim c (col, rng)).1 in
  let idx := index_of_cell stim c in
  (∀ i, i ∉ idx → col' !! i = col !! i)
  ∧ (∀ i, i ∈ idx → col' !! i = Some "low" ∨ col' !! i = Some "high")
  ∧ sal_count col' idx "low" = (length idx / 2)%nat
  ∧ sal_count col' idx "high" = (length idx - length idx / 2)%nat.
Proof.
  intros Hlen. cbv zeta. unfold assign_cell.
  pose proof (index_of_cell_NoDup stim c) as Hnd.
  assert (Hbound : ∀ i, i ∈ index_of_cell stim c → (i < length col)%nat).
  { intros i (r & Hr & _)%index_of_cell_elem. apply lookup_lt_Some in Hr. lia. }
  generalize dependent (index_of_cell stim c). intros idx Hnd Hbound.
  destruct (Nat.eqb_spec (length idx) 0) as [Hzero|Hpos].
  - apply nil_length_inv in Hzero. subst idx. simpl.
    split; [done|]. split; [by intros i ?%elem_of_nil|]. done.
  - pose proof (shuffle_perm idx rng) as Hp.
    destruct (shuffle idx rng) as [idx' rng']. cbn [fst] in *.
    pose proof (Permutation_length Hp) as Hn.
    set (half := (length idx / 2)%nat).
    assert (Hhalf : (half ≤ length idx')%nat).
    { unfold half. rewrite Hn. apply Nat.Div0.div_le_upper_bound. lia. }
    pose proof (take_drop half idx') as Hsplit.
    pose proof (length_take_le idx' half Hhalf) as Hlow_len.
    pose proof (length_drop idx' half) as Hhigh_len.
    generalize dependent (take half idx'). intros low Hsplit Hlow_len.
    generalize dependent (drop half idx'). intros high Hhigh_len Hsplit.
    subst idx'.
    assert (Hnd' : NoDup (low ++ high)) by by rewrite Hp.
    apply NoDup_app in Hnd' as (_ & Hdisj & _).
    assert (Hlow : ∀ i, i ∈ low →
              set_at (set_at col low "low") high "high" !! i = Some "low").
    { intros i Hi. rewrite set_at_lookup_notin by by apply Hdisj.
      apply set_at_lookup_in; [done|]. apply Hbound. rewrite <- Hp, elem_of_app. by left. }
    assert (Hhigh : ∀ i, i ∈ high →
              set_at (set_at col low "low") high "high" !! i = Some "high").
    { intros i Hi. apply set_at_lookup_in; [done|]. rewrite set_at_length.
      apply Hbound. rewrite <- Hp, elem_of_app. by right. }
    split; [|split; [|split]].
    + intros i Hi. rewrite <- Hp, elem_of_app in Hi.
      rewrite !set_at_lookup_notin; [done|tauto|tauto].
    + intros i Hi. rewrite <- Hp, elem_of_app in Hi.
      destruct Hi as [Hi|Hi]; [left; by apply Hlow|right; by apply Hhigh].
    + unfold sal_count. rewrite <- (filter_length_perm _ _ _ Hp).
      rewrite List.filter_app, length_app, filter_all, filter_none.
      * simpl. lia.
      * intros i Hi. apply bool_decide_eq_false_2. by rewrite Hhigh.
      * intros i Hi. apply bool_decide_eq_true_2. by apply Hlow.
    + unfold sal_count. rewrite <- (filter_length_perm _ _ _ Hp).
      rewrite List.filter_app, length_app, filter_none, filter_all.
      * simpl. lia.
      * intros i Hi. apply bool_decide_eq_true_2. by apply Hhigh.
      * intros i Hi. apply bool_decide_eq_false_2. by rewrite Hlow.
Qed.

End salience_facts.

Lemma count_salience_zip (stim : list Row) (col : list string) c s :
  length col = length stim →
  length (List.filter (λ rs : Row * string, in_cell c rs.1 && String.eqb rs.2 s)
            (zip stim col))
  = sal_count col (index_of_cell stim c) s.
Proof.
  intros Hlen. rewrite filter_positions, length_zip_with, Hlen, Nat.min_id.
  unfold sal_count, index_of_cell. rewrite filter_filter_andb. f_equal.
  apply filter_ext_elem. intros i Hi%elem_of_seq.
  destruct (lookup_lt_is_Some_2 stim i) as [r Hr]; [lia|].
  destruct (lookup_lt_is_Some_2 col i) as [t Ht]; [lia|].
  rewrite lookup_zip_with, Hr, Ht. simpl. f_equal.
  destruct (String.eqb_spec t s) as [->|Hne].
  - by rewrite bool_decide_eq_true_2.
  - rewrite bool_decide_eq_false_2; [done|congruence].
Qed.

Lemma fill_empty_lookup col i :
  col !! i = Some "low" ∨ col !! i = Some "high" → fill_empty col !! i = col !! i.
Proof.
  unfold fill_empty. rewrite list_lookup_fmap. by intros [-> | ->].
Qed.

Lemma concat_samples_elem (df : list Row) (n : nat) cells samples x :
  Forall2 (λ c smp, smp ⊆+ List.filter (in_cell c) df ∧ length smp = n) cells samples →
  x ∈ concat samples → ∃ c, c ∈ cells ∧ in_cell c x = true ∧ x ∈ df.
Proof.
  induction 1 as [|c smp cells samples [Hsub _] _ IH]; cbn [concat].
  - by intros ?%elem_of_nil.
  - intros [Hx|Hx]%elem_of_app.
    + exists c. split; [apply list_elem_of_here|].
      eapply elem_of_submseteq in Hx; [|done].
      apply list_elem_of_In, filter_In in Hx as [Hx Hc].
      split; [done|]. by apply list_elem_of_In.
    + destruct (IH Hx) as (c' & Hc' & Hin). exists c'.
      split; [by apply list_elem_of_further|done].
Qed.

Section salience_run.
Context {G : Type} `{GeneratorLaws G}.

Lemma assign_cells_spec stim cells (st : list string * G) :
  NoDup cells → length st.1 = length stim →
  let col' := (foldl (λ st c, assign_cell stim c st) st cells).1 in
  length col' = length stim
  ∧ (∀ i, (∀ c, c ∈ cells → i ∉ index_of_cell stim c) → col' !! i = st.1 !! i)
  ∧ ∀ c, c ∈ cells →
      (∀ i, i ∈ index_of_cell stim c → col' !! i = Some "low" ∨ col' !! i = Some "high")
      ∧ sal_count col' (index_of_cell stim c) "low"
        = (length (index_of_cell stim c) / 2)%nat
      ∧ sal_count col' (index_of_cell stim c) "high"
        = (length (index_of_cell stim c) - length (index_of_cell stim c) / 2)%nat.
Proof.
  cbv zeta. revert st. induction cells as [|c cells IH]; intros st Hnd Hlen.
  - simpl. split; [done|]. split; [done|]. by intros c ?%elem_of_nil.
  - apply NoDup_cons in Hnd as [Hfresh Hnd]. cbn [foldl].
    destruct st as [col rng]. cbn [fst] in Hlen.
    destruct (assign_cell_spec stim c col rng Hlen) as (Hout & Hin & Hlo & Hhi).
    pose proof (assign_cell_length stim c (col, rng)) as Hlen1. cbn [fst] in Hlen1.
    destruct (IH (assign_cell stim c (col, rng)) Hnd) as (IHlen & IHout & IHin);
      [by rewrite Hlen1|].
    set (col' := (foldl _ _ cells).1) in *.
    set (col1 := (assign_cell stim c (col, rng)).1) in *.
    assert (Hkeep : ∀ i, i ∈ index_of_cell stim c → col' !! i = col1 !! i).
    { intros i Hi. apply IHout. intros c' Hc' Hi'.
      apply Hfresh. by rewrite (index_of_cell_disjoint stim c c' i). }
    split; [done|]. split.
    + intros i Hi. rewrite IHout.
      * apply Hout. apply Hi, list_elem_of_here.
      * intros c' Hc'. apply Hi. by apply list_elem_of_further.
    + intros c' [->|Hc']%elem_of_cons; [|by apply IHin].
      split; [|split].
      * intros i Hi. rewrite (Hkeep i Hi). by apply Hin.
      * by rewrite (sal_count_ext col1 col').
      * by rewrite (sal_count_ext col1 col').
Qed.

End salience_run.

Lemma count_cell_number_rows (stim : list Row) (col : list string) stim' c :
  stim' ≡ₚ zip stim col → length col = length stim →
  count_cell (number_rows stim') c = length (index_of_cell stim c).
Proof.
  intros Hperm Hlen. unfold count_cell, number_rows.
  rewrite (filter_imap_length _ _ (λ rs, in_cell c rs.1)).
  - rewrite (filter_length_perm _ _ _ Hperm), filter_zip_fst_length by lia.
    by rewrite index_of_cell_length.
  - intros i rs. unfold in_cell. simpl. by rewrite override_name_cell.
Qed.

Lemma count_salience_number_rows (stim : list Row) (col : list string) stim' c s :
  stim' ≡ₚ zip stim col → length col = length stim →
  count_salience (number_rows stim') c s = sal_count col (index_of_cell stim c) s.
Proof.
  intros Hperm Hlen. unfold count_salience, number_rows.
  rewrite (filter_imap_length _ _ (λ rs, in_cell c rs.1 && String.eqb rs.2 s)).
  - by rewrite (filter_length_perm _ _ _ Hperm), count_salience_zip.
  - intros i rs. unfold in_cell. simpl. by rewrite override_name_cell.
Qed.

Section outcome_salience.
Context {G : Type} `{GeneratorLaws G}.
Variable hash : Z * Z → Z.

(** The salience of the rows of a run, cell by cell. *)
Lemma run_salience cfg (df : list Row) (w : World G) :
  seeds_ok hash cfg = true →
  (∀ c, c ∈ all_cells → n_per_cell cfg ≤ available df c) →
  ∃ rows, build_stimulus_set hash cfg df w = (inr rows, w)
    ∧ (∀ r, r ∈ rows → salience r = "low" ∨ salience r = "high")
    ∧ ∀ c, c ∈ all_cells →
        count_salience rows c "low" = (count_cell rows c / 2)%nat
        ∧ count_salience rows c "high"
          = (count_cell rows c - count_cell rows c / 2)%nat.
Proof.
  intros Hseeds Havail.
  destruct (build_stimulus_set_ok hash cfg df w Hseeds Havail)
    as (samples & stim' & Hrun & Hall & Hperm).
  exists (number_rows stim'). split; [done|].
  set (stim := concat samples) in *.
  destruct (assign_cells_spec stim all_cells
              (replicate (length stim) "", default_rng (random_seed cfg))
              all_cells_NoDup) as (Hlen & _ & Hcells).
  { simpl. by rewrite length_replicate. }
  fold (assign_salience stim (default_rng (random_seed cfg))) in Hlen, Hcells.
  set (col := (assign_salience stim (default_rng (random_seed cfg))).1) in *.
  assert (Hlen2 : length (fill_empty col) = length stim)
    by by rewrite fill_empty_length.
  assert (Hfill : ∀ c i, c ∈ all_cells → i ∈ index_of_cell stim c →
            fill_empty col !! i = col !! i).
  { intros c i Hc Hi. apply fill_empty_lookup. by apply (Hcells c Hc). }
  split.
  - intros r (i & rs & -> & Hrs)%elem_of_lookup_imap. simpl.
    apply list_elem_of_lookup_2 in Hrs. rewrite Hperm in Hrs.
    apply elem_of_lookup_zip_with in Hrs as (j & x & y & -> & Hx & Hy). simpl.
    destruct (concat_samples_elem _ _ _ _ x Hall) as (c & Hc & Hin & _).
    { by eapply list_elem_of_lookup_2. }
    assert (Hj : j ∈ index_of_cell stim c)
      by (apply index_of_cell_elem; by exists x).
    rewrite (Hfill c j Hc Hj) in Hy.
    destruct (Hcells c Hc) as (Hlh & _). destruct (Hlh j Hj); simplify_eq; auto.
  - intros c Hc.
    rewrite !(count_salience_number_rows stim (fill_empty col)) by done.
    rewrite (count_cell_number_rows stim (fill_empty col)) by done.
    rewrite !(sal_count_ext col (fill_empty col)) by (intros i Hi; by eapply Hfill).
    destruct (Hcells c Hc) as (_ & Hlo & Hhi). done.
Qed.

End outcome_salience.

(** ** Where the rows come from *)

Lemma samples_without (df : list Row) (n : nat) c cells samples :
  c ∉ cells →
  Forall2 (λ c smp, smp ⊆+ List.filter (in_cell c) df ∧ length smp = n) cells samples →
  Forall2 (λ c' smp, smp ⊆+ List.filter (in_cell c')
                              (List.filter (negb ∘ in_cell c) df) ∧ length smp = n)
          cells samples.
Proof.
  intros Hfresh Hall. induction Hall as [|c' smp cells samples [Hsub Hlen] _ IH].
  - constructor.
  - apply not_elem_of_cons in Hfresh as [Hne Hfresh].
    constructor; [|by apply IH]. split; [|done].
    rewrite filter_filter_andb.
    rewrite (filter_ext_elem _ (in_cell c') df); [done|].
    intros x _. simpl. destruct (in_cell c' x) eqn:Hc'; [|by rewrite andb_false_r].
    by rewrite (in_cell_other c' c x).
Qed.

Lemma concat_samples_submseteq (n : nat) cells samples (df : list Row) :
  NoDup cells →
  Forall2 (λ c smp, smp ⊆+ List.filter (in_cell c) df ∧ length smp = n) cells samples →
  concat samples ⊆+ df.
Proof.
  intros Hnd. revert samples df.
  induction Hnd as [|c cells Hfresh _ IH]; intros samples df Hall.
  - apply Forall2_nil_inv_l in Hall as ->. simpl. apply submseteq_nil_l.
  - apply Forall2_cons_inv_l in Hall as (smp & samples' & [Hsub _] & Hall & ->).
    cbn [concat]. rewrite <- (filter_partition_perm (in_cell c) df).
    apply submseteq_app; [done|]. apply IH. by apply samples_without.
Qed.

Lemma usable_elem df r :
  r ∈ usable df ↔ r ∈ df ∧ lang_da r = 1 ∧ is_Some (eco_score r).
Proof.
  unfold usable. rewrite list_elem_of_In, !filter_In, <- list_elem_of_In.
  rewrite bool_decide_eq_true, Z.eqb_eq. tauto.
Qed.

Lemma usable_submseteq df : usable df ⊆+ df.
Proof.
  unfold usable. etransitivity; apply filter_submseteq.
Qed.

Section outcome_source.
Context {G : Type} `{GeneratorLaws G}.
Variable hash : Z * Z → Z.

(** Sampling is without replacement and from the usable rows.  The
    frame a run returns is the numbering of rows [picked] that, as a
    multiset, are contained in the frame the script loaded: no row is
    used more often than it occurs there.  Every row returned is Danish
    ([lang_da = 1]), has a grade and lies in one of the four cells; only
    its name may have been replaced by an override. *)
Theorem sampled_without_replacement cfg (df : list Row) (w : World G) :
  seeds_ok hash cfg = true →
  (∀ c, c ∈ all_cells → n_per_cell cfg ≤ available df c) →
  ∃ picked : list (Row * string),
    build_stimulus_set hash cfg df w = (inr (number_rows picked), w)
    ∧ picked.*1 ⊆+ df
    ∧ ∀ r, r ∈ number_rows picked →
        lang_da (source r) = 1 ∧ is_Some (eco_score (source r))
        ∧ cell (source r) ∈ all_cells.
Proof.
  intros Hseeds Havail.
  destruct (build_stimulus_set_ok hash cfg df w Hseeds Havail)
    as (samples & stim' & Hrun & Hall & Hperm).
  exists stim'. split; [done|].
  pose proof (assign_salience_length (concat samples) (default_rng (random_seed cfg)))
    as Hlen.
  assert (Hfst : stim'.*1 ≡ₚ concat samples).
  { rewrite Hperm. rewrite fst_zip; [done|]. rewrite fill_empty_length. lia. }
  split.
  - rewrite Hfst. transitivity (usable df); [|apply usable_submseteq].
    exact (concat_samples_submseteq _ all_cells samples _ all_cells_NoDup Hall).
  - intros r (i & rs & -> & Hrs)%elem_of_lookup_imap. simpl.
    assert (Hin : rs.1 ∈ concat samples).
    { rewrite <- Hfst. apply list_elem_of_fmap. exists rs. split; [done|].
      by eapply list_elem_of_lookup_2. }
    destruct (concat_samples_elem _ _ _ _ _ Hall Hin) as (c & Hc & Hcell & Hus).
    apply usable_elem in Hus as (_ & Hda & Heco).
    unfold in_cell in Hcell. apply bool_decide_eq_true in Hcell.
    rewrite override_name_cell, Hcell.
    unfold override_name. by destruct (List.find _ _).
Qed.

End outcome_source.

Section outcome_theorems.
Context {G : Type} `{GeneratorLaws G}.
Variable hash : Z * Z → Z.

(** The balanced sample.  When every cell has at least [n_per_cell =
    2 * target_per_cell] usable rows and the seeds are seeds numpy takes,
    the script returns a frame with exactly [n_per_cell] rows of each of
    the four cells, four times [n_per_cell] rows in all, numbered 1, 2,
    ... in the order of the frame; the ambient random state is left as
    it was. *)
Theorem sampled_cells_balanced cfg (df : list Row) (w : World G) :
  seeds_ok hash cfg = true →
  (∀ c, c ∈ all_cells → n_per_cell cfg ≤ available df c) →
  ∃ rows, build_stimulus_set hash cfg df w = (inr rows, w)
    ∧ (∀ c, c ∈ all_cells → count_cell rows c = Z.to_nat (n_per_cell cfg))
    ∧ length rows = (4 * Z.to_nat (n_per_cell cfg))%nat
    ∧ item_id <$> rows = (λ i, Z.of_nat i + 1) <$> seq 0 (length rows).
Proof. apply run_cells. Qed.

(** The salience split.  In the frame a run returns every row has the
    salience "low" or "high", and of the rows of each cell the floor
    half are "low" and the others "high". *)
Theorem salience_split cfg (df : list Row) (w : World G) :
  seeds_ok hash cfg = true →
  (∀ c, c ∈ all_cells → n_per_cell cfg ≤ available df c) →
  ∃ rows, build_stimulus_set hash cfg df w = (inr rows, w)
    ∧ (∀ r, r ∈ rows → salience r = "low" ∨ salience r = "high")
    ∧ ∀ c, c ∈ all_cells →
        count_salience rows c "low" = (count_cell rows c / 2)%nat
        ∧ count_salience rows c "high"
          = (count_cell rows c - count_cell rows c / 2)%nat.
Proof. apply run_salience. Qed.

End outcome_theorems.

(** *** The theorems at a concrete input *)

Lemma small_frame_available c :
  c ∈ all_cells → n_per_cell small_config ≤ available small_frame c.
Proof.
  intros Hc. unfold all_cells in Hc. rewrite !elem_of_cons, elem_of_nil in Hc.
  destruct Hc as [->|[->|[->|[->|[]]]]]; apply Z.leb_le; reflexivity.
Qed.

Lemma sampled_cells_balanced_witness :
  seeds_ok zero_hash small_config = true
  ∧ ∃ rows,
      build_stimulus_set (H:=Functions.plain_generator) zero_hash small_config
        small_frame still_world = (inr rows, still_world)
      ∧ length rows = 8%nat.
Proof.
  split; [reflexivity|].
  destruct (sampled_cells_balanced (H:=Functions.plain_generator) (H0:=Tape.laws _ _)
              zero_hash small_config small_frame still_world eq_refl
              small_frame_available) as (rows & Hrun & _ & Hlen & _).
  exists rows. split; [exact Hrun|exact Hlen].
Defined.

Lemma salience_split_witness :
  seeds_ok zero_hash small_config = true
  ∧ ∃ rows,
      build_stimulus_set (H:=Functions.plain_generator) zero_hash small_config
        small_frame still_world = (inr rows, still_world)
      ∧ count_salience rows (1, 1) "low" = (count_cell rows (1%Z, 1%Z) / 2)%nat.
Proof.
  split; [reflexivity|].
  destruct (salience_split (H:=Functions.plain_generator) (H0:=Tape.laws _ _)
              zero_hash small_config small_frame still_world eq_refl
              small_frame_available) as (rows & Hrun & _ & Hsplit).
  exists rows. split; [exact Hrun|].
  apply (Hsplit (1, 1)). unfold all_cells. do 3 apply list_elem_of_further.
  apply list_elem_of_here.
Defined.

Lemma sampled_without_replacement_witness :
  seeds_ok zero_hash small_config = true
  ∧ ∃ picked : list (Row * string),
      build_stimulus_set (H:=Functions.plain_generator) zero_hash small_config
        small_frame still_world = (inr (number_rows picked), still_world)
      ∧ picked.*1 ⊆+ small_frame.
Proof.
  split; [reflexivity|].
  destruct (sampled_without_replacement (H:=Functions.plain_generator)
              (H0:=Tape.laws _ _) zero_hash small_config small_frame still_world
              eq_refl small_frame_available) as (picked & Hrun & Hsub & _).
  exists picked. split; [exact Hrun|exact Hsub].
Defined.

End BuildStimulusSet.

(** * [experiment_run_functions.py]: the blocks of the experiment *)

Module Experiment.

Import BuildStimulusSet.

(** The ways [build_blocks_from_items] stops. *)
Inductive Failure :=
  | ValueError
  | ZeroDivisionError
  | IndexError.

(** [df["_cell"]], on one row of the stimulus frame: the badge, the eco
    signal and the salience, lower-cased and stripped. *)
Definition _cell (r : Stim) : Z * Z * string :=
  (organic_badge (source r), eco_signal (source r), Str.strip (Str.lower (salience r))).

(** The order of the keys of [df.groupby("_cell")]: tuples compare
    component by component, strings by code unit. *)
Definition key_leb (a b : Z * Z * string) : bool :=
  let '(a1, a2, a3) := a in
  let '(b1, b2, b3) := b in
  if a1 =? b1 then
    if a2 =? b2 then String.leb a3 b3 else a2 <? b2
  else a1 <? b1.

Fixpoint insert_key (k : Z * Z * string) (l : list (Z * Z * string))
    : list (Z * Z * string) :=
  match l with
  | [] => [k]
  | x :: l' => if key_leb k x then k :: l else x :: insert_key k l'
  end.

(** The keys of the groups: the distinct cells, sorted. *)
Definition group_keys (df : list Stim) : list (Z * Z * string) :=
  foldr insert_key [] (remove_dups (_cell <$> df)).

(** [list(g.index)] of the group of a key: the positions of its rows. *)
Definition group_index (df : list Stim) (k : Z * Z * string) : list nat :=
  List.filter (λ i, match df !! i with
                    | Some r => bool_decide (_cell r = k)
                    | None => false
                    end)
    (seq 0 (length df)).

(** [k % n_blocks]: the remainder has the sign of the divisor, and a
    zero divisor raises. *)
Definition py_mod (k n : Z) : Failure + Z :=
  if n =? 0 then inl ZeroDivisionError else inr (k `mod` n).

(** [blocks[j].append(i)]: a negative index counts from the end, an
    index out of range raises. *)
Definition append_at (blocks : list (list nat)) (j : Z) (i : nat)
    : Failure + list (list nat) :=
  let len := Z.of_nat (length blocks) in
  let j := if j <? 0 then j + len else j in
  if (0 <=? j) && (j <? len)
  then inr (alter (λ b, (b ++ [i])%list) (Z.to_nat j) blocks)
  else inl IndexError.

(** One turn of [for k, i in enumerate(idx)]; a turn entered after an
    exception does nothing. *)
Definition deal_row (n_blocks : Z) (acc : Failure + list (list nat)) (ki : nat * nat)
    : Failure + list (list nat) :=
  match acc with
  | inl e => inl e
  | inr blocks =>
      match py_mod (Z.of_nat ki.1) n_blocks with
      | inl e => inl e
      | inr j => append_at blocks j ki.2
      end
  end.

(** [for k, i in enumerate(idx): blocks[k % n_blocks].append(i)] *)
Definition deal_rows (n_blocks : Z) (idx : list nat) (blocks : list (list nat))
    : Failure + list (list nat) :=
  foldl (deal_row n_blocks) (inr blocks) (imap pair idx).

(** The number of [k] in [0 .. m-1] with [k % n_blocks = b]. *)
Definition share (n_blocks b m : nat) : nat :=
  (m / n_blocks + if b <? m `mod` n_blocks then 1 else 0)%nat.

(** The number of rows of a cell in a block. *)
Definition count_key (block : list Stim) (k : Z * Z * string) : nat :=
  length (List.filter (λ r, bool_decide (_cell r = k)) block).

(** [np.random.default_rng] takes no negative seed. *)
Definition seed_refused (rng_seed : option Z) : bool :=
  match rng_seed with
  | Some s => s <? 0
  | None => false
  end.

Section blocks.
Context {G : Type} `{Generator G}.

(** One turn of the loop over the groups; a turn entered after an
    exception does nothing. *)
Definition deal_group (n_blocks : Z) (df : list Stim)
    (acc : Failure + list (list nat) * G) (k : Z * Z * string)
    : Failure + list (list nat) * G :=
  match acc with
  | inl e => inl e
  | inr (blocks, rng) =>
      let idx := group_index df k in
      let '(idx, rng) := shuffle idx rng in
      match deal_rows n_blocks idx blocks with
      | inl e => inl e
      | inr blocks => inr (blocks, rng)
      end
  end.

(** The loop that turns each list of positions into a frame in an order
    of its own: [df.loc[idxs].sample(frac=1.0, random_state=None)]. *)
Fixpoint sample_blocks (df : list Stim) (blocks : list (list nat)) (w : World G)
    : list (list Stim) * World G :=
  match blocks with
  | [] => ([], w)
  | idxs :: blocks' =>
      let rows := iloc df idxs in
      let '(bdf, w) := sample rows (length rows) None w in
      let '(out, w) := sample_blocks df blocks' w in
      (bdf :: out, w)
  end.

Definition build_blocks_from_items (df : list Stim) (n_blocks : Z)
    (rng_seed : option Z) (w : World G) : (Failure + list (list Stim)) * World G :=
  if seed_refused rng_seed then (inl ValueError, w)
  else
    let '(rng, w) := default_rng_opt rng_seed w in
    let blocks := replicate (Z.to_nat n_blocks) [] in
    match foldl (deal_group n_blocks df) (inr (blocks, rng)) (group_keys df) with
    | inl e => (inl e, w)
    | inr (blocks, _) =>
        let '(out, w) := sample_blocks df blocks w in
        (inr out, w)
    end.

End blocks.

(** *** Example data *)

(** Five stimuli: three of one cell and two of another. *)
Definition demo_items : list Stim :=
  [ mkStim 1 "low" (mkRow "Havregryn" 1 1 (Some "a") 1 0 (Some "cereals"));
    mkStim 2 "high" (mkRow "Cornflakes" 0 0 (Some "d") 1 0 (Some "cereals"));
    mkStim 3 "low" (mkRow "Rugbrød" 1 1 (Some "b") 1 1 (Some "breads"));
    mkStim 4 "high" (mkRow "Toastbrød" 0 0 (Some "e") 1 0 (Some "breads"));
    mkStim 5 "low" (mkRow "Skyr" 1 1 (Some "a") 1 0 (Some "dairies")) ].

(** ** Dealing positions round-robin *)

(** The dealing with a positive number [n] of blocks, where no step
    raises: the index [k % n] is in range. *)
Definition deal (n : nat) (idx : list nat) (blocks : list (list nat))
    : list (list nat) :=
  foldl (λ blocks ki, alter (λ b, (b ++ [ki.2])%list) (ki.1 `mod` n)%nat blocks)
        blocks (imap pair idx).

(** The positions [deal] appends to block [b], when the count starts at
    [k]. *)
Fixpoint pick (n b k : nat) (idx : list nat) : list nat :=
  match idx with
  | [] => []
  | i :: idx' => ((if (k `mod` n =? b)%nat then [i] else []) ++ pick n b (S k) idx')%list
  end.

Lemma share_succ (n b m : nat) :
  (0 < n)%nat → (b < n)%nat →
  share n b (S m) = (share n b m + if (m `mod` n =? b)%nat then 1 else 0)%nat.
Proof.
  intros Hn Hb. unfold share.
  pose proof (Nat.div_mod_eq m n) as Hm.
  pose proof (Nat.mod_upper_bound m n ltac:(lia)) as Hr.
  set (q := (m / n)%nat) in *. set (r := (m `mod` n)%nat) in *.
  destruct (decide (S r = n)) as [Heq|Hne].
  - rewrite <- (Nat.div_unique (S m) n (S q) 0) by nia.
    rewrite <- (Nat.mod_unique (S m) n (S q) 0) by nia.
    destruct (Nat.ltb_spec b 0), (Nat.ltb_spec b r), (Nat.eqb_spec r b); lia.
  - rewrite <- (Nat.div_unique (S m) n q (S r)) by nia.
    rewrite <- (Nat.mod_unique (S m) n q (S r)) by nia.
    destruct (Nat.ltb_spec b (S r)), (Nat.ltb_spec b r), (Nat.eqb_spec r b); lia.
Qed.

Lemma share_zero (n b : nat) : (0 < n)%nat → share n b 0 = 0%nat.
Proof.
  intros Hn. unfold share. rewrite Nat.Div0.div_0_l, Nat.Div0.mod_0_l. done.
Qed.

Lemma count_mod_share (n b m : nat) :
  (0 < n)%nat → (b < n)%nat →
  length (List.filter (λ k, (k `mod` n =? b)%nat) (seq 0 m)) = share n b m.
Proof.
  intros Hn Hb. induction m as [|m IH]; [by rewrite share_zero|].
  rewrite seq_S, List.filter_app, length_app, IH, share_succ by done. simpl.
  by destruct (_ =? _)%nat.
Qed.

Lemma pick_length (n b k : nat) (idx : list nat) :
  length (pick n b k idx)
  = length (List.filter (λ k, (k `mod` n =? b)%nat) (seq k (length idx))).
Proof.
  revert k. induction idx as [|i idx IH]; intros k; [done|]. simpl.
  rewrite length_app, IH. by destruct (_ =? _)%nat.
Qed.

Lemma pick_share (n b : nat) (idx : list nat) :
  (0 < n)%nat → (b < n)%nat → length (pick n b 0 idx) = share n b (length idx).
Proof. intros Hn Hb. by rewrite pick_length, count_mod_share. Qed.

Lemma pick_elem (n b k : nat) (idx : list nat) i : i ∈ pick n b k idx → i ∈ idx.
Proof.
  revert k. induction idx as [|j idx IH]; intros k; simpl; [done|].
  intros [Hi|Hi]%elem_of_app.
  - destruct (_ =? _)%nat; [|by apply elem_of_nil in Hi].
    apply list_elem_of_singleton in Hi as ->. apply list_elem_of_here.
  - apply list_elem_of_further. by eapply IH.
Qed.

Definition deal_step (n : nat) (blocks : list (list nat)) (ki : nat * nat)
    : list (list nat) :=
  alter (λ b, (b ++ [ki.2])%list) (ki.1 `mod` n)%nat blocks.

Lemma deal_from_length (n k0 : nat) idx blocks :
  length (foldl (deal_step n) blocks (imap (λ j i, ((k0 + j)%nat, i)) idx))
  = length blocks.
Proof.
  revert k0 blocks. induction idx as [|i idx IH]; intros k0 blocks; [done|].
  rewrite imap_cons. cbn [foldl].
  rewrite (imap_ext _ (λ j i, ((S k0 + j)%nat, i))).
  - rewrite IH. unfold deal_step. by rewrite length_alter.
  - intros j x _. simpl. f_equal. lia.
Qed.

Lemma deal_from_lookup (n k0 : nat) idx blocks b :
  foldl (deal_step n) blocks (imap (λ j i, ((k0 + j)%nat, i)) idx) !! b
  = (λ l, (l ++ pick n b k0 idx)%list) <$> blocks !! b.
Proof.
  revert k0 blocks. induction idx as [|i idx IH]; intros k0 blocks.
  - simpl. destruct (blocks !! b); simpl; [by rewrite app_nil_r|done].
  - rewrite imap_cons. cbn [foldl].
    rewrite (imap_ext _ (λ j i, ((S k0 + j)%nat, i)))
      by (intros j x _; simpl; f_equal; lia).
    rewrite IH. unfold deal_step. cbn [fst snd pick].
    rewrite Nat.add_0_r.
    destruct (Nat.eqb_spec (k0 `mod` n) b) as [->|Hne].
    + rewrite list_lookup_alter_eq. destruct (blocks !! b); simpl; [|done].
      by rewrite <- app_assoc.
    + by rewrite list_lookup_alter_ne.
Qed.

Lemma deal_length n idx blocks : length (deal n idx blocks) = length blocks.
Proof. apply (deal_from_length n 0). Qed.

Lemma deal_lookup n idx blocks b :
  deal n idx blocks !! b = (λ l, (l ++ pick n b 0 idx)%list) <$> blocks !! b.
Proof. apply (deal_from_lookup n 0). Qed.

Lemma deal_rows_pos (n_blocks : Z) idx blocks :
  0 < n_blocks → length blocks = Z.to_nat n_blocks →
  deal_rows n_blocks idx blocks = inr (deal (Z.to_nat n_blocks) idx blocks).
Proof.
  intros Hn. unfold deal_rows, deal. generalize (imap pair idx). intros kis.
  revert blocks. induction kis as [|[k i] kis IH]; intros blocks Hlen; [done|].
  cbn [foldl deal_row fst snd]. unfold py_mod.
  destruct (Z.eqb_spec n_blocks 0) as [Hz|_]; [lia|].
  unfold append_at.
  pose proof (Z.mod_pos_bound (Z.of_nat k) n_blocks Hn) as Hj.
  destruct (Z.ltb_spec (Z.of_nat k `mod` n_blocks) 0) as [Hneg|_]; [lia|].
  destruct (Z.leb_spec 0 (Z.of_nat k `mod` n_blocks)) as [_|Hneg]; [|lia].
  destruct (Z.ltb_spec (Z.of_nat k `mod` n_blocks) (Z.of_nat (length blocks)))
    as [_|Hge]; [|lia].
  cbn [andb].
  assert (Hidx : Z.to_nat (Z.of_nat k `mod` n_blocks) = (k `mod` Z.to_nat n_blocks)%nat).
  { rewrite <- (Z2Nat.id n_blocks) at 1 by lia.
    by rewrite <- Nat2Z.inj_mod, Nat2Z.id. }
  rewrite Hidx. apply IH. by rewrite length_alter.
Qed.

(** ** The groups *)

Lemma insert_key_perm k l : insert_key k l ≡ₚ k :: l.
Proof.
  induction l as [|x l IH]; simpl; [done|].
  destruct (key_leb k x); [done|]. by rewrite IH, Permutation_swap.
Qed.

Lemma group_keys_perm df : group_keys df ≡ₚ remove_dups (_cell <$> df).
Proof.
  unfold group_keys. induction (remove_dups (_cell <$> df)) as [|k l IH]; simpl; [done|].
  by rewrite insert_key_perm, IH.
Qed.

Lemma group_keys_NoDup df : NoDup (group_keys df).
Proof. rewrite group_keys_perm. apply NoDup_remove_dups. Qed.

Lemma group_keys_elem df k : k ∈ group_keys df ↔ ∃ r, r ∈ df ∧ _cell r = k.
Proof.
  rewrite group_keys_perm, elem_of_remove_dups, list_elem_of_fmap. naive_solver.
Qed.

Lemma group_index_elem df k i :
  i ∈ group_index df k ↔ ∃ r, df !! i = Some r ∧ _cell r = k.
Proof.
  unfold group_index. rewrite list_elem_of_In, filter_In, <- list_elem_of_In, elem_of_seq.
  split.
  - intros [_ Hi]. destruct (df !! i) as [r|]; [|done].
    exists r. split; [done|]. by apply bool_decide_eq_true in Hi.
  - intros (r & Hr & Hk). rewrite Hr. split.
    + apply lookup_lt_Some in Hr. lia.
    + by apply bool_decide_eq_true.
Qed.

Lemma group_index_length df k : length (group_index df k) = count_key df k.
Proof. unfold group_index, count_key. by rewrite <- filter_positions. Qed.

(** The rows at positions of one group all have its key. *)
Lemma count_key_group df k k' (idxs : list nat) :
  (∀ i, i ∈ idxs → i ∈ group_index df k') →
  count_key (iloc df idxs) k = if bool_decide (k = k') then length idxs else 0%nat.
Proof.
  intros Hin. unfold count_key. case_bool_decide as Hk.
  - subst k'. rewrite filter_all.
    + apply Functions.iloc_length. intros i Hi.
      apply Hin, group_index_elem in Hi as (r & Hr & _). by apply lookup_lt_Some in Hr.
    + intros r Hr. unfold iloc in Hr. apply list_elem_of_omap in Hr as (i & Hi & Hr).
      apply Hin, group_index_elem in Hi as (r' & Hr' & Hc). simplify_eq.
      by apply bool_decide_eq_true.
  - rewrite filter_none; [done|].
    intros r Hr. unfold iloc in Hr. apply list_elem_of_omap in Hr as (i & Hi & Hr).
    apply Hin, group_index_elem in Hi as (r' & Hr' & Hc). simplify_eq.
    apply bool_decide_eq_false. congruence.
Qed.

Lemma count_key_app l1 l2 k : count_key (l1 ++ l2) k = (count_key l1 k + count_key l2 k)%nat.
Proof. unfold count_key. by rewrite List.filter_app, length_app. Qed.

(** The rows a block takes from shuffled groups: of the group of [k] its
    share, of the other groups nothing. *)
Lemma count_key_picks df (n b : nat) keys shuffled k :
  (0 < n)%nat → (b < n)%nat → NoDup keys →
  Forall2 (λ k g, g ≡ₚ group_index df k) keys shuffled →
  count_key (iloc df (concat (pick n b 0 <$> shuffled))) k
  = if bool_decide (k ∈ keys) then share n b (count_key df k) else 0%nat.
Proof.
  intros Hn Hb Hnd Hall.
  induction Hall as [|k' g keys shuffled Hg _ IH]; [done|].
  apply NoDup_cons in Hnd as [Hfresh Hnd]. specialize (IH Hnd).
  rewrite fmap_cons. cbn [concat]. rewrite iloc_app, count_key_app, IH.
  rewrite (count_key_group df k k').
  - destruct (decide (k = k')) as [->|Hne].
    + rewrite bool_decide_eq_true_2 by done.
      rewrite (bool_decide_eq_false_2 (k' ∈ keys)) by done.
      rewrite bool_decide_eq_true_2 by apply list_elem_of_here.
      rewrite pick_share, Hg, group_index_length by done. lia.
    + rewrite bool_decide_eq_false_2 by done. simpl.
      apply (f_equal (λ c : bool, if c then share n b (count_key df k) else 0%nat)).
      apply bool_decide_ext. rewrite elem_of_cons. naive_solver.
  - intros i Hi%pick_elem. by rewrite <- Hg.
Qed.

(** ** Nothing is lost and nothing is dealt twice *)

Lemma concat_alter_snoc (blocks : list (list nat)) (j i : nat) :
  (j < length blocks)%nat →
  concat (alter (λ b, (b ++ [i])%list) j blocks) ≡ₚ (concat blocks ++ [i])%list.
Proof.
  revert j. induction blocks as [|b blocks IH]; intros j Hj; simpl in Hj; [lia|].
  destruct j as [|j].
  - simpl. rewrite <- !app_assoc. apply Permutation_app_head, Permutation_app_comm.
  - change (concat (alter (λ b, (b ++ [i])%list) (S j) (b :: blocks)))
      with (b ++ concat (alter (λ b, (b ++ [i])%list) j blocks))%list.
    rewrite IH by lia. cbn [concat]. by rewrite app_assoc.
Qed.

Lemma deal_concat (n : nat) idx blocks :
  (0 < n)%nat → length blocks = n →
  concat (deal n idx blocks) ≡ₚ (concat blocks ++ idx)%list.
Proof.
  intros Hn. assert (Hgen : ∀ (kis : list (nat * nat)) blocks, length blocks = n →
    concat (foldl (λ blocks ki, alter (λ b, (b ++ [ki.2])%list) (ki.1 `mod` n)%nat blocks)
              blocks kis) ≡ₚ (concat blocks ++ kis.*2)%list).
  { clear -Hn. intros kis. induction kis as [|ki kis IH]; intros blocks Hlen.
    - simpl. by rewrite app_nil_r.
    - cbn [foldl]. rewrite IH by by rewrite length_alter.
      rewrite concat_alter_snoc.
      + rewrite fmap_cons, <- app_assoc. done.
      + rewrite Hlen. apply Nat.mod_upper_bound. lia. }
  intros Hlen. unfold deal. rewrite Hgen by done.
  apply Permutation_app_head.
  assert (Hsnd : ∀ (l : list nat) k, (imap (λ j i, ((k + j)%nat, i)) l).*2 = l).
  { induction l as [|x l IH]; intros k; [done|]. rewrite imap_cons, fmap_cons. simpl.
    f_equal. rewrite <- (IH (S k)) at 2. f_equal. apply imap_ext.
    intros j y _. simpl. f_equal. lia. }
  pose proof (Hsnd idx 0%nat) as Hidx. simpl in Hidx.
  change (imap (λ j i : nat, (j, i)) idx) with (imap pair idx) in Hidx.
  by rewrite Hidx.
Qed.

Lemma group_index_partition df :
  concat (group_index df <$> group_keys df) ≡ₚ seq 0 (length df).
Proof.
  apply (concat_filter_keys
    (λ k i, match df !! i with Some r => bool_decide (_cell r = k) | None => false end)).
  - apply group_keys_NoDup.
  - intros i Hi%elem_of_seq.
    destruct (lookup_lt_is_Some_2 df i) as [r Hr]; [lia|].
    exists (_cell r). split.
    + apply group_keys_elem. exists r. split; [|done]. by eapply list_elem_of_lookup_2.
    + rewrite Hr. by apply bool_decide_eq_true.
  - intros i k k'. destruct (df !! i); [|done].
    intros Hk%bool_decide_eq_true Hk'%bool_decide_eq_true. congruence.
Qed.

Section block_facts.
Context {G : Type} `{GeneratorLaws G}.

(** One turn of the loop over the groups with a positive number of
    blocks. *)
Definition deal_group_pos (n : nat) (df : list Stim)
    (st : list (list nat) * G) (k : Z * Z * string) : list (list nat) * G :=
  let '(blocks, rng) := st in
  let '(idx, rng) := shuffle (group_index df k) rng in
  (deal n idx blocks, rng).

Lemma deal_group_pos_length (n : nat) df keys (st : list (list nat) * G) :
  length (foldl (deal_group_pos n df) st keys).1 = length st.1.
Proof.
  revert st. induction keys as [|k keys IH]; intros [blocks rng]; [done|].
  cbn [foldl]. rewrite IH. unfold deal_group_pos.
  destruct (shuffle (group_index df k) rng) as [idx rng']. simpl. apply deal_length.
Qed.

Lemma deal_groups_pos (n_blocks : Z) df keys (st : list (list nat) * G) :
  0 < n_blocks → length st.1 = Z.to_nat n_blocks →
  foldl (deal_group n_blocks df) (inr st) keys
  = inr (foldl (deal_group_pos (Z.to_nat n_blocks) df) st keys).
Proof.
  intros Hn. revert st. induction keys as [|k keys IH]; intros [blocks rng] Hlen; [done|].
  cbn [foldl]. cbn [fst] in Hlen. unfold deal_group at 2, deal_group_pos at 2.
  destruct (shuffle (group_index df k) rng) as [idx rng'].
  rewrite deal_rows_pos by done. apply IH. cbn [fst]. by rewrite deal_length.
Qed.

Lemma deal_groups_spec (n : nat) df keys blocks (rng : G) :
  (0 < n)%nat → length blocks = n →
  ∃ shuffled,
    Forall2 (λ k g, g ≡ₚ group_index df k) keys shuffled
    ∧ length (foldl (deal_group_pos n df) (blocks, rng) keys).1 = n
    ∧ (∀ b, (foldl (deal_group_pos n df) (blocks, rng) keys).1 !! b
            = (λ l, (l ++ concat (pick n b 0 <$> shuffled))%list) <$> blocks !! b)
    ∧ concat (foldl (deal_group_pos n df) (blocks, rng) keys).1
      ≡ₚ (concat blocks ++ concat (group_index df <$> keys))%list.
Proof.
  intros Hn. revert blocks rng. induction keys as [|k keys IH]; intros blocks rng Hlen.
  - exists []. split; [constructor|]. split; [done|]. split.
    + intros b. simpl. destruct (blocks !! b); simpl; [by rewrite app_nil_r|done].
    + simpl. by rewrite app_nil_r.
  - cbn [foldl]. unfold deal_group_pos at 2 4 6.
    pose proof (shuffle_perm (group_index df k) rng) as Hp.
    destruct (shuffle (group_index df k) rng) as [g rng']. cbn [fst] in Hp.
    destruct (IH (deal n g blocks) rng') as (shuffled & Hall & Hl & Hlook & Hcat).
    { by rewrite deal_length. }
    exists (g :: shuffled). split; [by constructor|]. split; [done|]. split.
    + intros b. rewrite Hlook, deal_lookup. rewrite fmap_cons. cbn [concat].
      destruct (blocks !! b); simpl; [|done]. by rewrite app_assoc.
    + rewrite Hcat, deal_concat by done. rewrite fmap_cons. cbn [concat].
      by rewrite Hp, app_assoc.
Qed.

Lemma sample_blocks_spec df blocks (w : World G) :
  Forall2 (λ out idxs, out ≡ₚ iloc df idxs) (sample_blocks df blocks w).1 blocks.
Proof.
  revert w. induction blocks as [|idxs blocks IH]; intros w; cbn [sample_blocks].
  - constructor.
  - cbv zeta. pose proof (sample_all_perm (iloc df idxs) None w) as Hp.
    destruct (sample (iloc df idxs) _ None w) as [bdf w1]. cbn [fst] in Hp.
    specialize (IH w1). destruct (sample_blocks df blocks w1) as [out w2].
    cbn [fst] in *. by constructor.
Qed.

(** The shape of a run with a positive number of blocks. *)
Lemma build_blocks_ok df (n_blocks : Z) rng_seed (w : World G) :
  0 < n_blocks → seed_refused rng_seed = false →
  ∃ out w' blocks shuffled,
    build_blocks_from_items df n_blocks rng_seed w = (inr out, w')
    ∧ Forall2 (λ o idxs, o ≡ₚ iloc df idxs) out blocks
    ∧ length blocks = Z.to_nat n_blocks
    ∧ Forall2 (λ k g, g ≡ₚ group_index df k) (group_keys df) shuffled
    ∧ (∀ b, (b < Z.to_nat n_blocks)%nat →
            blocks !! b = Some (concat (pick (Z.to_nat n_blocks) b 0 <$> shuffled)))
    ∧ concat blocks ≡ₚ seq 0 (length df).
Proof.
  intros Hn Hseed. unfold build_blocks_from_items. rewrite Hseed.
  destruct (default_rng_opt rng_seed w) as [rng w1].
  rewrite (deal_groups_pos n_blocks df (group_keys df)
             (replicate (Z.to_nat n_blocks) [], rng) Hn)
    by (cbn [fst]; by rewrite length_replicate).
  set (n := Z.to_nat n_blocks).
  destruct (deal_groups_spec n df (group_keys df) (replicate n []) rng)
    as (shuffled & Hall & Hlen & Hlook & Hcat).
  { lia. }
  { by rewrite length_replicate. }
  destruct (foldl (deal_group_pos n df) _ _) as [blocks rng']. cbn [fst] in *.
  pose proof (sample_blocks_spec df blocks w1) as Hout.
  destruct (sample_blocks df blocks w1) as [out w2]. cbn [fst] in Hout.
  exists out, w2, blocks, shuffled.
  split; [done|]. split; [done|]. split; [done|]. split; [done|]. split.
  - intros b Hb. rewrite Hlook, lookup_replicate_2 by done. done.
  - rewrite Hcat, group_index_partition.
    assert (Hnil : concat (replicate n (@nil nat)) = []).
    { clear. induction n as [|n IH]; [done|]. simpl. done. }
    by rewrite Hnil.
Qed.

End block_facts.

(** ** What [build_blocks_from_items] returns *)

Lemma count_key_absent df k : k ∉ group_keys df → count_key df k = 0%nat.
Proof.
  intros Hk. unfold count_key. rewrite filter_none; [done|].
  intros r Hr. apply bool_decide_eq_false. intros Hc.
  apply Hk, group_keys_elem. by exists r.
Qed.

Lemma count_key_perm l l' k : l ≡ₚ l' → count_key l k = count_key l' k.
Proof. intros Hp. unfold count_key. by apply filter_length_perm. Qed.

Lemma share_bounds (n b m : nat) : (m / n ≤ share n b m ≤ m / n + 1)%nat.
Proof. unfold share. destruct (_ <? _)%nat; lia. Qed.

Section block_theorems.
Context {G : Type} `{GeneratorLaws G}.

(** The rows of a cell in each block. *)
Lemma run_round_robin df (n_blocks : Z) rng_seed (w : World G) :
  0 < n_blocks → seed_refused rng_seed = false →
  ∃ out w', build_blocks_from_items df n_blocks rng_seed w = (inr out, w')
    ∧ length out = Z.to_nat n_blocks
    ∧ (∀ b block k, out !! b = Some block →
         count_key block k = share (Z.to_nat n_blocks) b (count_key df k))
    ∧ (∀ b1 b2 block1 block2 k, out !! b1 = Some block1 → out !! b2 = Some block2 →
         (count_key block1 k ≤ count_key block2 k + 1)%nat).
Proof.
  intros Hn Hseed.
  destruct (build_blocks_ok df n_blocks rng_seed w Hn Hseed)
    as (out & w' & blocks & shuffled & Hrun & Hout & Hlen & Hall & Hlook & _).
  exists out, w'. split; [done|].
  pose proof (Forall2_length _ _ _ Hout) as Hlen'.
  assert (Hcount : ∀ b block k, out !! b = Some block →
            count_key block k = share (Z.to_nat n_blocks) b (count_key df k)).
  { intros b block k Hb.
    destruct (Forall2_lookup_l _ _ _ _ _ Hout Hb) as (idxs & Hidxs & Hperm).
    assert (Hlt : (b < Z.to_nat n_blocks)%nat).
    { apply lookup_lt_Some in Hb. lia. }
    rewrite (Hlook b Hlt) in Hidxs. simplify_eq.
    rewrite (count_key_perm _ _ k Hperm).
    rewrite (count_key_picks df _ b (group_keys df)); [|lia|done|apply group_keys_NoDup|done].
    case_bool_decide as Hk; [done|].
    rewrite (count_key_absent df k Hk), share_zero; [done|lia]. }
  split; [lia|]. split; [done|].
  intros b1 b2 block1 block2 k Hb1 Hb2.
  rewrite (Hcount _ _ k Hb1), (Hcount _ _ k Hb2).
  pose proof (share_bounds (Z.to_nat n_blocks) b1 (count_key df k)).
  pose proof (share_bounds (Z.to_nat n_blocks) b2 (count_key df k)). lia.
Qed.

(** Round-robin balance.  With a positive number of blocks the function
    returns that many blocks, and of the [m] rows of a cell (badge, eco
    signal, salience) block [b] holds [m // n_blocks] rows and one more
    when [b < m % n_blocks]: the counts of a cell in two blocks differ
    by at most one, and the extra rows go to the first blocks. *)
Theorem blocks_round_robin df (n_blocks : Z) rng_seed (w : World G) :
  0 < n_blocks → seed_refused rng_seed = false →
  ∃ out w', build_blocks_from_items df n_blocks rng_seed w = (inr out, w')
    ∧ length out = Z.to_nat n_blocks
    ∧ (∀ b block k, out !! b = Some block →
         count_key block k = share (Z.to_nat n_blocks) b (count_key df k))
    ∧ (∀ b1 b2 block1 block2 k, out !! b1 = Some block1 → out !! b2 = Some block2 →
         (count_key block1 k ≤ count_key block2 k + 1)%nat).
Proof. apply run_round_robin. Qed.

(** The blocks partition the frame: together they hold every row of it,
    each as often as the frame does. *)
Theorem blocks_partition df (n_blocks : Z) rng_seed (w : World G) :
  0 < n_blocks → seed_refused rng_seed = false →
  ∃ out w', build_blocks_from_items df n_blocks rng_seed w = (inr out, w')
    ∧ concat out ≡ₚ df.
Proof.
  intros Hn Hseed.
  destruct (build_blocks_ok df n_blocks rng_seed w Hn Hseed)
    as (out & w' & blocks & shuffled & Hrun & Hout & _ & _ & _ & Hcat).
  exists out, w'. split; [done|].
  rewrite (concat_perm_Forall2 out (iloc df <$> blocks)).
  - rewrite <- iloc_concat. by apply iloc_perm.
  - by apply Forall2_fmap_r.
Qed.

End block_theorems.

Lemma group_keys_nil df : group_keys df = [] ↔ df = [].
Proof.
  split; [|by intros ->].
  intros Hnil. destruct df as [|r df]; [done|].
  assert (Hr : _cell r ∈ group_keys (r :: df)).
  { apply group_keys_elem. exists r. split; [apply list_elem_of_here|done]. }
  rewrite Hnil in Hr. by apply elem_of_nil in Hr.
Qed.

Lemma group_index_nonempty df k : k ∈ group_keys df → group_index df k ≠ [].
Proof.
  intros (r & Hr & Hk)%group_keys_elem Hnil.
  apply list_elem_of_lookup in Hr as [i Hi].
  assert (Hin : i ∈ group_index df k).
  { apply group_index_elem. by exists r. }
  rewrite Hnil in Hin. by apply elem_of_nil in Hin.
Qed.

Lemma deal_rows_raised (n_blocks : Z) (e : Failure) (kis : list (nat * nat)) :
  foldl (deal_row n_blocks) (inl e) kis = inl e.
Proof. induction kis as [|ki kis IH]; [done|]. exact IH. Qed.

(** The first row dealt with no block to take it raises. *)
Lemma deal_rows_without_room (n_blocks : Z) (idx : list nat) :
  n_blocks ≤ 0 → idx ≠ [] →
  deal_rows n_blocks idx []
  = inl (if n_blocks =? 0 then ZeroDivisionError else IndexError).
Proof.
  intros Hn Hidx. destruct idx as [|i idx]; [done|].
  unfold deal_rows. cbn [imap foldl deal_row fst snd]. unfold py_mod.
  destruct (Z.eqb_spec n_blocks 0) as [Hz|Hz]; [apply deal_rows_raised|].
  change (Z.of_nat 0) with 0. rewrite Z.mod_0_l by done.
  apply deal_rows_raised.
Qed.

Section block_failures.
Context {G : Type} `{GeneratorLaws G}.

Lemma deal_groups_raised (n_blocks : Z) df (e : Failure) keys :
  foldl (deal_group (G:=G) n_blocks df) (inl e) keys = inl e.
Proof. induction keys as [|k keys IH]; [done|]. exact IH. Qed.

(** No block to fill.  With [n_blocks <= 0] the list of blocks is
    empty: an empty frame has no group and the function returns no
    block; for any other frame the first row of the first group is
    dealt to [blocks[0 % n_blocks]], which raises [ZeroDivisionError]
    for [n_blocks = 0] and [IndexError] for a negative [n_blocks].  The
    ambient random state is left as it was. *)
Theorem blocks_without_room df (n_blocks : Z) rng_seed (w : World G) :
  n_blocks ≤ 0 → seed_refused rng_seed = false →
  build_blocks_from_items df n_blocks rng_seed w
  = (match df with
     | [] => inr []
     | _ :: _ => inl (if n_blocks =? 0 then ZeroDivisionError else IndexError)
     end, w).
Proof.
  intros Hn Hseed. unfold build_blocks_from_items. rewrite Hseed.
  assert (Hw : (default_rng_opt rng_seed w).2 = w) by by destruct rng_seed.
  destruct (default_rng_opt rng_seed w) as [rng w1]. simpl in Hw. subst w1.
  assert (Hnone : Z.to_nat n_blocks = 0%nat) by lia.
  rewrite Hnone. cbn [replicate].
  destruct (group_keys df) as [|k keys] eqn:Hkeys.
  - apply group_keys_nil in Hkeys. by subst df.
  - assert (Hk : k ∈ group_keys df) by (rewrite Hkeys; apply list_elem_of_here).
    apply group_index_nonempty in Hk.
    cbn [foldl]. unfold deal_group at 2.
    pose proof (shuffle_perm (group_index df k) rng) as Hp.
    destruct (shuffle (group_index df k) rng) as [idx rng']. cbn [fst] in Hp.
    rewrite deal_rows_without_room; [|done|].
    + rewrite deal_groups_raised. by destruct df.
    + intros ->. by apply Permutation_nil_l in Hp.
Qed.

End block_failures.

(** ** The blocks of the stimulus set *)

Lemma count_key_salience (rows : list Stim) (c : Z * Z) s :
  (∀ r, r ∈ rows → salience r = "low" ∨ salience r = "high") →
  s = "low" ∨ s = "high" →
  count_key rows (c.1, c.2, s) = count_salience rows c s.
Proof.
  intros Hsal Hs. unfold count_key, count_salience. f_equal.
  apply filter_ext_elem. intros r Hr. unfold _cell, in_cell, cell.
  destruct c as [c1 c2]. simpl.
  assert (Hkey : Str.strip (Str.lower (salience r)) = salience r)
    by (destruct (Hsal r Hr) as [-> | ->]; reflexivity).
  rewrite Hkey.
  destruct (String.eqb_spec (salience r) s) as [Heq|Hne].
  - rewrite andb_true_r. apply bool_decide_ext. rewrite Heq. naive_solver.
  - rewrite andb_false_r. apply bool_decide_eq_false. congruence.
Qed.

Section stimulus_blocks.
Context {G : Type} `{GeneratorLaws G}.
Variable hash : Z * Z → Z.

(** The blocks of the stimulus set.  Dealt into a positive number of
    blocks, the frame the stimulus script returns gives block [b], for
    each of the four cells and each salience, [t // n_blocks] rows and
    one more when [b < t % n_blocks], where [t] is [target_per_cell]. *)
Theorem stimulus_set_blocks cfg (df : list Row) (w w2 : World G)
    (n_blocks : Z) rng_seed :
  seeds_ok hash cfg = true →
  (∀ c, c ∈ all_cells → n_per_cell cfg ≤ available df c) →
  0 < n_blocks → seed_refused rng_seed = false →
  ∃ rows out w',
    build_stimulus_set hash cfg df w = (inr rows, w)
    ∧ build_blocks_from_items rows n_blocks rng_seed w2 = (inr out, w')
    ∧ ∀ b block c s, out !! b = Some block → c ∈ all_cells →
        s = "low" ∨ s = "high" →
        count_key block (c.1, c.2, s)
        = share (Z.to_nat n_blocks) b (Z.to_nat (target_per_cell cfg)).
Proof.
  intros Hseeds Havail Hn Hseed.
  destruct (run_cells hash cfg df w Hseeds Havail) as (rows & Hrun & Hcells & _).
  destruct (run_salience hash cfg df w Hseeds Havail) as (rows' & Hrun' & Hsal & Hsplit).
  assert (rows' = rows) as -> by congruence.
  destruct (run_round_robin rows n_blocks rng_seed w2 Hn Hseed)
    as (out & w' & Hblocks & _ & Hcount & _).
  exists rows, out, w'. split; [done|]. split; [done|].
  intros b block c s Hb Hc Hs.
  rewrite (Hcount b block _ Hb), (count_key_salience rows c s Hsal Hs).
  f_equal. destruct (Hsplit c Hc) as [Hlo Hhi]. rewrite (Hcells c Hc) in Hlo, Hhi.
  assert (Hdouble : Z.to_nat (n_per_cell cfg) = (Z.to_nat (target_per_cell cfg) * 2)%nat)
    by (unfold n_per_cell; lia).
  rewrite Hdouble, Nat.div_mul in Hlo, Hhi by done.
  destruct Hs as [-> | ->]; [done|]. rewrite Hhi. lia.
Qed.

End stimulus_blocks.

(** *** The theorems at a concrete input *)

Lemma blocks_round_robin_witness :
  0 < 2 ∧ seed_refused None = false
  ∧ ∃ out w',
      build_blocks_from_items (H:=Functions.plain_generator) demo_items 2 None still_world
      = (inr out, w')
      ∧ length out = 2%nat.
Proof.
  assert (Hn : 0 < 2) by lia.
  split; [exact Hn|]. split; [reflexivity|].
  destruct (blocks_round_robin (H:=Functions.plain_generator) (H0:=Tape.laws _ _)
              demo_items 2 None still_world Hn eq_refl) as (out & w' & Hrun & Hlen & _).
  exists out, w'. split; [exact Hrun|exact Hlen].
Defined.

Lemma blocks_partition_witness :
  0 < 2 ∧ seed_refused None = false
  ∧ ∃ out w',
      build_blocks_from_items (H:=Functions.plain_generator) demo_items 2 None still_world
      = (inr out, w')
      ∧ concat out ≡ₚ demo_items.
Proof.
  assert (Hn : 0 < 2) by lia.
  split; [exact Hn|]. split; [reflexivity|].
  exact (blocks_partition (H:=Functions.plain_generator) (H0:=Tape.laws _ _)
           demo_items 2 None still_world Hn eq_refl).
Defined.

Lemma blocks_without_room_witness :
  0 ≤ 0 ∧ seed_refused None = false
  ∧ build_blocks_from_items (H:=Functions.plain_generator) demo_items 0 None still_world
    = (inl ZeroDivisionError, still_world).
Proof.
  assert (Hn : 0 ≤ 0) by lia.
  split; [exact Hn|]. split; [reflexivity|].
  exact (blocks_without_room (H:=Functions.plain_generator) (H0:=Tape.laws _ _)
           demo_items 0 None still_world Hn eq_refl).
Defined.

Lemma stimulus_set_blocks_witness :
  seeds_ok zero_hash small_config = true ∧ 0 < 2 ∧ seed_refused None = false
  ∧ ∃ rows out w',
      build_stimulus_set (H:=Functions.plain_generator) zero_hash small_config
        small_frame still_world = (inr rows, still_world)
      ∧ build_blocks_from_items (H:=Functions.plain_generator) rows 2 None still_world
        = (inr out, w').
Proof.
  assert (Hn : 0 < 2) by lia.
  split; [reflexivity|]. split; [exact Hn|]. split; [reflexivity|].
  destruct (stimulus_set_blocks (H:=Functions.plain_generator) (H0:=Tape.laws _ _)
              zero_hash small_config small_frame still_world still_world 2 None
              eq_refl small_frame_available Hn eq_refl)
    as (rows & out & w' & Hrun & Hblocks & _).
  exists rows, out, w'. split; [exact Hrun|exact Hblocks].
Defined.

End Experiment.
